(** * tsfsm: a typed convenience layer over a document-database client

    Shallow embedding of [src/index.ts]: the dotted field-path shaper
    [parseFieldPath], the readers [getDoc], [getDocs] and [docs] with
    their field-request loops, the snapshot listeners [listenDoc] /
    [listenDocs], [delDoc], and the chunked batch writer [writeBatch],
    followed by the properties of the specification that concern them. *)

From Equations Require Import Equations.
From Stdlib Require Import Ascii String.
From stdpp Require Import gmap strings list fin_maps.

Set Warnings "-register-all".
Local Open Scope string_scope.

(** ** JavaScript values

    Objects are finite maps from property names to values. Numbers are the
    integer-valued ones ([VNum 0] stands for both zeros) and [NaN]; big
    integers are kept apart from them. Every falsy value of the language
    is represented; the values left out (fractions, infinities, symbols,
    functions, arrays) are all truthy. *)

Inductive value :=
| VUndefined
| VNull
| VBool (b : bool)
| VNum (z : Z)
| VStr (s : string)
| VObj (o : gmap string value)
| VNaN
| VBigInt (z : Z).

(** [ToBoolean]: the test performed by [if (x)] and [x && y]. *)
Definition truthy (v : value) : bool :=
  match v with
  | VUndefined | VNull | VNaN => false
  | VBool b => b
  | VNum z | VBigInt z => negb (z =? 0)%Z
  | VStr s => negb (String.eqb s "")
  | VObj _ => true
  end.

(** Number of object layers wrapped around the innermost values. *)
Fixpoint depth (v : value) : nat :=
  match v with
  | VObj o => S (map_fold (λ _ v' acc, Nat.max (depth v') acc) 0 o)
  | _ => 0
  end.

(** Property read [v[k]]; reading a property of a non-object yields
    nothing here. *)
Definition getProp (k : string) (v : value) : option value :=
  match v with
  | VObj o => o !! k
  | _ => None
  end.

(** Follow a chain of property names from the outside in. *)
Fixpoint getPath (ks : list string) (v : value) : option value :=
  match ks with
  | [] => Some v
  | k :: ks' => match getProp k v with
                | Some v' => getPath ks' v'
                | None => None
                end
  end.

(** Object spread [{...a, ...b}]: the properties of [b] win. *)
Definition spread (a b : gmap string value) : gmap string value := b ∪ a.

(** ** Strings: [String.prototype.split] and [Array.prototype.join] *)

Definition is_dot (c : Ascii.ascii) : bool := Ascii.eqb c "."%char.

(** [s.split('.')]: always at least one segment. *)
Fixpoint str_split (s : string) : list string :=
  match s with
  | EmptyString => [""]
  | String c r =>
      if is_dot c then "" :: str_split r
      else match str_split r with
           | h :: t => String c h :: t
           | [] => [String c ""]
           end
  end.

(** [segs.join('.')]. *)
Definition str_join (segs : list string) : string := String.concat "." segs.

Fixpoint dot_free (s : string) : bool :=
  match s with
  | EmptyString => true
  | String c r => negb (is_dot c) && dot_free r
  end.

(** [a[0]] used as a computed property name: an absent element reads as
    [undefined], whose property name is "undefined". *)
Definition index0 (fields : list string) : string :=
  default "undefined" (fields !! 0).

Lemma str_split_nonempty s : str_split s ≠ [].
Proof.
  destruct s as [|c r]; simpl; [done|].
  destruct (is_dot c); [done|]. by destruct (str_split r).
Qed.

Lemma str_join_cons a b rest :
  str_join (a :: b :: rest) = a ++ "." ++ str_join (b :: rest).
Proof. reflexivity. Qed.

Lemma str_join_push c h t :
  str_join (String c h :: t) = String c (str_join (h :: t)).
Proof. by destruct t. Qed.

Lemma str_join_split s : str_join (str_split s) = s.
Proof.
  induction s as [|c r IH]; [done|]. simpl.
  destruct (str_split r) as [|h t] eqn:Hr; [by apply str_split_nonempty in Hr|].
  destruct (is_dot c) eqn:Hc.
  - apply Ascii.eqb_eq in Hc as ->. rewrite str_join_cons, IH. reflexivity.
  - by rewrite str_join_push, IH.
Qed.

Lemma str_split_dot_free s : Forall (λ seg, dot_free seg = true) (str_split s).
Proof.
  induction s as [|c r IH]; simpl.
  - by constructor.
  - destruct (is_dot c) eqn:Hc.
    + by constructor.
    + destruct (str_split r) as [|h t]; inversion IH; subst;
        constructor; simpl; rewrite ?Hc; auto.
Qed.

Lemma str_split_dot_free_string k : dot_free k = true → str_split k = [k].
Proof.
  induction k as [|c r IH]; simpl; [done|].
  intros [Hc Hr]%andb_prop. apply negb_true_iff in Hc. rewrite Hc.
  by rewrite (IH Hr).
Qed.

Lemma str_split_app k rest :
  dot_free k = true → str_split (k ++ "." ++ rest) = k :: str_split rest.
Proof.
  induction k as [|c r IH]; simpl; [done|].
  intros [Hc Hr]%andb_prop. apply negb_true_iff in Hc. rewrite Hc.
  by rewrite (IH Hr).
Qed.

Lemma str_split_join segs :
  segs ≠ [] → Forall (λ seg, dot_free seg = true) segs →
  str_split (str_join segs) = segs.
Proof.
  induction segs as [|a [|b rest] IH]; intros Hne Hall; [done| |].
  - inversion Hall; subst. by apply str_split_dot_free_string.
  - inversion Hall; subst. rewrite str_join_cons, str_split_app by done.
    f_equal. by apply IH.
Qed.

Lemma str_length_app (a b : string) :
  String.length (a ++ b) = String.length a + String.length b.
Proof. induction a; simpl; auto. Qed.

Lemma str_join_tail_shorter s r rs :
  drop 1 (str_split s) = r :: rs →
  String.length (str_join (r :: rs)) < String.length s.
Proof.
  intros Hd. pose proof (str_join_split s) as Hs.
  destruct (str_split s) as [|h t]; [done|].
  change (drop 1 (h :: t)) with t in Hd. rewrite Hd in Hs.
  rewrite <- Hs, str_join_cons, !str_length_app. simpl. lia.
Qed.

(** ** The field-path shaper *)

(** [parseFieldPath(fp, data)], lines 236-251 of [src/index.ts]: the
    result starts as [{[fields[0]]: data}]; when [fields.slice(1)] is not
    empty its property [fields[0]] is reassigned to the shaping of the
    re-joined remainder. *)
Equations? parseFieldPath (fp : string) (data : value) : value
  by wf (String.length fp) lt :=
  parseFieldPath fp data with Logic.inspect (drop 1 (str_split fp)) := {
    | exist _ [] _ =>
        VObj {[ index0 (str_split fp) := data ]}
    | exist _ (r :: rs) Hrest =>
        VObj (<[ index0 (str_split fp) := parseFieldPath (str_join (r :: rs)) data ]>
                {[ index0 (str_split fp) := data ]}) }.
Proof. by apply str_join_tail_shorter. Qed.

(** The mapping [{s0: {s1: ... {sn: v}}}]. *)
Fixpoint nest (segs : list string) (v : value) : value :=
  match segs with
  | [] => v
  | s :: rest => VObj {[ s := nest rest v ]}
  end.

(** ** Outcomes *)

(** Errors visible to a caller: a [TypeError] raised by the JavaScript
    runtime, or a failure produced by the client library. *)
Inductive error (FirestoreError : Type) :=
| TypeError
| ClientError (e : FirestoreError).
Arguments TypeError {_}.
Arguments ClientError {_} e.

(** How a promise settles. *)
Inductive settled (E A : Type) :=
| Fulfilled (a : A)
| Rejected (e : E).
Arguments Fulfilled {_ _} a.
Arguments Rejected {_ _} e.

(** A promise that settles at [settleTime] with [outcome]. *)
Record promise (E A : Type) := {
  settleTime : nat;
  outcome : settled E A }.
Arguments settleTime {_ _} p.
Arguments outcome {_ _} p.

(** The rejection that settles first; on equal times the earlier element. *)
Fixpoint firstRejected {E A} (ps : list (promise E A)) : option (nat * E) :=
  match ps with
  | [] => None
  | p :: rest =>
      match outcome p, firstRejected rest with
      | Fulfilled _, r => r
      | Rejected e, None => Some (settleTime p, e)
      | Rejected e, Some (t', e') =>
          if (settleTime p <=? t')%nat then Some (settleTime p, e) else Some (t', e')
      end
  end.

Definition fulfilledValues {E A} (ps : list (promise E A)) : list A :=
  omap (λ p, match outcome p with Fulfilled a => Some a | Rejected _ => None end) ps.

(** [Promise.all(ps)] once every element has settled: rejected with the
    first rejection, otherwise fulfilled with all values in array order. *)
Definition promiseAll {E A} (ps : list (promise E A)) : settled E (list A) :=
  match firstRejected ps with
  | Some (_, e) => Rejected e
  | None => Fulfilled (fulfilledValues ps)
  end.

(** A statement either completes normally or throws. *)
Inductive completion (A : Type) :=
| Normal (a : A)
| Throw.
Arguments Normal {_} a.
Arguments Throw {_}.

(** A call that returns a value or throws an error. *)
Inductive returned (E A : Type) :=
| Returns (a : A)
| Throws (e : E).
Arguments Returns {_ _} a.
Arguments Throws {_ _} e.

(** [l.map(f)] where [f] may throw: the first throw ends the mapping. *)
Fixpoint mapR {E A B} (f : A → returned E B) (l : list A) : returned E (list B) :=
  match l with
  | [] => Returns []
  | x :: rest =>
      match f x with
      | Throws e => Throws e
      | Returns y =>
          match mapR f rest with
          | Throws e => Throws e
          | Returns ys => Returns (y :: ys)
          end
      end
  end.

(** [lodash.chunk(array, size)]: [ceil(length / size)] consecutive slices
    of [size] elements, the last one holding the remainder. *)
Definition chunk {A} (array : list A) (size : nat) : list (list A) :=
  if (size <? 1)%nat then []
  else (λ i, take size (drop (i * size) array))
         <$> seq 0 ((length array + size - 1) / size).

(** ** The client library and the wrappers around it *)

(** A field path handed to [getDoc]: a dotted string, or a [FieldPath]
    object of the client library. *)
Inductive FieldPathArg :=
| FPString (s : string)
| FPObject (segments : list string).

Inductive WriteType := DELETE | SET | UPDATE.

#[global] Instance WriteType_eq_dec : EqDecision WriteType.
Proof. solve_decision. Defined.

(** What [listenDoc] / [listenDocs] hand back to their caller. *)
Inductive listenResult :=
| RetUndefined
| RetUnsubscribe (registration : nat).

Section Client.
Context {FirebaseFirestore DocumentReference Query : Type}.
Context {SnapshotOptions SnapshotMetadata FirestoreError Callback : Type}.
Context {SnapshotExists : Type}.

(** *** Documents *)

(** A snapshot of the client. Its member [exists] is carried around as
    it is, whatever it is. Its method [get] is modelled twice: called on
    the snapshot ([snap.get(..)]), and called as a bare function after
    [const { get } = snap], where it has no receiver; what it does then
    is the client's business (the Firestore client reads [this] and
    throws). *)
Record DocumentSnapshot := {
  snap_exists : SnapshotExists;
  snap_get : FieldPathArg → option SnapshotOptions → value;
  snap_get_detached :
    FieldPathArg → option SnapshotOptions → returned (error FirestoreError) value;
  snap_id : string;
  snap_metadata : SnapshotMetadata;
  snap_data : option SnapshotOptions → value }.

(** An element of the rest parameter [getFields]. *)
Record FieldRequest := {
  fieldPath : FieldPathArg;
  options : option SnapshotOptions }.

(** An element of the array [d] built by [getFields.map]. *)
Record FieldValue := {
  fv_data : value;
  fv_fieldPath : FieldPathArg }.

Inductive DocResult :=
| DataOnly (data : value)
| WithMeta (data : value) (exists_ : SnapshotExists) (id : string)
           (metadata : SnapshotMetadata).

(** Own enumerable properties copied by an object spread. Strings, whose
    indices are own properties, never reach a spread in this code. *)
Definition ownProps (v : value) : gmap string value :=
  match v with
  | VObj o => o
  | _ => ∅
  end.

Definition spreadValues (a b : value) : value :=
  VObj (spread (ownProps a) (ownProps b)).

(** [parseFieldPath(v.fieldPath as string, data)]: the cast is erased at
    run time, so a [FieldPath] object fails at [fp.split]. *)
Definition parseFieldPathCast (fp : FieldPathArg) (data : value) : completion value :=
  match fp with
  | FPString s => Normal (parseFieldPath s data)
  | FPObject _ => Throw
  end.

(** The body of [for (const v of d)], lines 69-77: the value handed to
    the shaper is the accumulator [data] itself. *)
Definition shapeStep (data : value) (v : FieldValue) : completion value :=
  match parseFieldPathCast (fv_fieldPath v) data with
  | Normal parsedFieldPath => Normal (spreadValues data parsedFieldPath)
  | Throw => Throw
  end.

Fixpoint shapeLoop (d : list FieldValue) (data : value) : completion value :=
  match d with
  | [] => Normal data
  | v :: rest =>
      match shapeStep data v with
      | Normal data' => shapeLoop rest data'
      | Throw => Throw
      end
  end.

Variable getDocument : DocumentReference → settled FirestoreError DocumentSnapshot.

(** The callback of [getFields.map] at lines 64-67 and 132-135: [get]
    was taken out of the snapshot by destructuring and is called without
    receiver. *)
Definition retrieveDetached (snap : DocumentSnapshot) (gf : FieldRequest)
  : returned (error FirestoreError) FieldValue :=
  match snap_get_detached snap (fieldPath gf) (options gf) with
  | Throws e => Throws e
  | Returns v => Returns {| fv_data := v; fv_fieldPath := fieldPath gf |}
  end.

(** [getDoc(ref, dataOnly, options, ...getFields)], lines 54-97. An
    error thrown in the body rejects the promise of the async function. *)
Definition getDoc (ref : DocumentReference) (dataOnly : bool)
    (opts : option SnapshotOptions) (getFields : list FieldRequest)
  : settled (error FirestoreError) DocResult :=
  match getDocument ref with
  | Rejected e => Rejected (ClientError e)
  | Fulfilled snap =>
      if (0 <? length getFields)%nat then
        match mapR (retrieveDetached snap) getFields with
        | Throws e => Rejected e
        | Returns d =>
            match shapeLoop d (VObj ∅) with
            | Throw => Rejected TypeError
            | Normal data =>
                if dataOnly then Fulfilled (DataOnly data)
                else Fulfilled (WithMeta data (snap_exists snap) (snap_id snap)
                                         (snap_metadata snap))
            end
        end
      else if dataOnly then Fulfilled (DataOnly (snap_data snap opts))
      else Fulfilled (WithMeta (snap_data snap opts) (snap_exists snap)
                               (snap_id snap) (snap_metadata snap))
  end.

(** *** The mutable side of the client *)

Inductive op :=
| OpSet (ref : DocumentReference) (data : value)
| OpUpdate (ref : DocumentReference) (data : value)
| OpDelete (ref : DocumentReference).

(** A [WriteBatch] object: the handle it was opened on and the
    operations appended so far. *)
Record WriteBatchObj := {
  wb_owner : FirebaseFirestore;
  wb_ops : list op }.

(** The client checks what it is handed before it appends to a batch
    (the reference against the handle of the batch, the payload of a
    [set] or [update]) and throws on what it refuses. Which operations
    it takes is the client's business. *)
Class BatchChecks := acceptsOp : FirebaseFirestore → op → bool.
Context `{!BatchChecks}.

Inductive target :=
| TDoc (ref : DocumentReference)
| TQuery (q : Query).

(** The observer object of [onSnapshot]; [cb] has the same shape. *)
Record observer := {
  complete : option Callback;
  on_error : option Callback;
  next : option Callback }.

(** State of the client: batch objects by handle, commits in the order
    they were issued (with the operations they carried), snapshot
    registrations by handle, and deletions requested. *)
Record world := {
  heap : list WriteBatchObj;
  commitLog : list (nat * list op);
  listeners : list (target * observer);
  deletions : list DocumentReference }.

Definition M (A : Type) : Type := world → completion A * world.

Definition ret {A} (a : A) : M A := λ w, (Normal a, w).
Definition throw {A} : M A := λ w, (Throw, w).
Definition bind {A B} (m : M A) (k : A → M B) : M B :=
  λ w, match m w with
       | (Normal a, w') => k a w'
       | (Throw, w') => (Throw, w')
       end.

Notation "x <- m ;; k" := (bind m (λ x, k))
  (at level 100, m at next level, right associativity).
Notation "m ;; k" := (bind m (λ _, k))
  (at level 100, right associativity).

Definition when (b : bool) (m : M unit) : M unit := if b then m else ret tt.

(** [for (const x of l) body]. *)
Fixpoint forOf {A} (l : list A) (body : A → M unit) : M unit :=
  match l with
  | [] => ret tt
  | x :: rest => body x ;; forOf rest body
  end.

(** A [for ... of] loop whose body updates a local variable. *)
Fixpoint forOfWith {A S} (l : list A) (body : S → A → M S) (s : S) : M S :=
  match l with
  | [] => ret s
  | x :: rest => s' <- body s x ;; forOfWith rest body s'
  end.

(** [l.map(f)] with an effectful [f]. *)
Fixpoint mapM {A B} (f : A → M B) (l : list A) : M (list B) :=
  match l with
  | [] => ret []
  | x :: rest => y <- f x ;; ys <- mapM f rest ;; ret (y :: ys)
  end.

Variable commitOutcome : nat → list op → promise FirestoreError unit.
Variable deleteOutcome : DocumentReference → promise FirestoreError unit.

(** [writeBatch(fs)] of the client library: a fresh, empty batch. *)
Definition writeDocs (fs : FirebaseFirestore) : M nat :=
  λ w, (Normal (length (heap w)),
        {| heap := heap w ++ [{| wb_owner := fs; wb_ops := [] |}];
           commitLog := commitLog w;
           listeners := listeners w;
           deletions := deletions w |}).

(** Whether the batch [h] takes the operation [o]. *)
Definition batchAccepts (w : world) (h : nat) (o : op) : bool :=
  match heap w !! h with
  | Some obj => acceptsOp (wb_owner obj) o
  | None => true
  end.

(** A method call [b.update(..)], [b.delete(..)] or [b.set(..)] on the
    value [b]: on [undefined] the property access throws; on a batch the
    client throws when it refuses the operation and appends it
    otherwise. *)
Definition batchAppend (b : option nat) (o : op) : M unit :=
  match b with
  | None => throw
  | Some h =>
      λ w, if batchAccepts w h o
           then (Normal tt,
                 {| heap := alter (λ obj, {| wb_owner := wb_owner obj;
                                             wb_ops := wb_ops obj ++ [o] |}) h (heap w);
                    commitLog := commitLog w;
                    listeners := listeners w;
                    deletions := deletions w |})
           else (Throw, w)
  end.

(** [batch.commit()]. *)
Definition commit (h : nat) : M (promise FirestoreError unit) :=
  λ w, let ops := default [] (wb_ops <$> heap w !! h) in
       (Normal (commitOutcome h ops),
        {| heap := heap w;
           commitLog := commitLog w ++ [(h, ops)];
           listeners := listeners w;
           deletions := deletions w |}).

(** [onSnapshot(target, observer)]: registers and returns the handle. *)
Definition onSnapshot (t : target) (obs : observer) : M nat :=
  λ w, (Normal (length (listeners w)),
        {| heap := heap w;
           commitLog := commitLog w;
           listeners := listeners w ++ [(t, obs)];
           deletions := deletions w |}).

(** [deleteDoc(ref)] of the client library. *)
Definition deleteDoc (ref : DocumentReference) : M (promise FirestoreError unit) :=
  λ w, (Normal (deleteOutcome ref),
        {| heap := heap w;
           commitLog := commitLog w;
           listeners := listeners w;
           deletions := deletions w ++ [ref] |}).

(** *** Listeners, lines 163-191 *)

Definition listenDoc (ref : DocumentReference) (cb : observer) : M listenResult :=
  onSnapshot (TDoc ref)
    {| complete := complete cb; on_error := on_error cb; next := next cb |} ;;
  ret RetUndefined.

Definition listenDocs (query : Query) (cb : observer) : M listenResult :=
  onSnapshot (TQuery query)
    {| complete := complete cb; on_error := on_error cb; next := next cb |} ;;
  ret RetUndefined.

(** *** Deletion, lines 193-195 *)

Definition delDoc (fs : FirebaseFirestore) (ref : DocumentReference)
  : M (promise FirestoreError unit) :=
  deleteDoc ref.

(** *** The chunked batch writer, lines 197-234 *)

Record Write := {
  w_type : WriteType;
  w_data : value;
  w_ref : DocumentReference }.

(** The three [if] statements run for each write, with [batches] the
    array as it is at that moment. An absent [data] reads as
    [undefined]. *)
Definition applyWrite (batches : list nat) (wr : Write) : M unit :=
  when (bool_decide (w_type wr = UPDATE) && truthy (w_data wr))
       (batchAppend (batches !! 0) (OpUpdate (w_ref wr) (w_data wr))) ;;
  when (bool_decide (w_type wr = DELETE))
       (batchAppend (batches !! 0) (OpDelete (w_ref wr))) ;;
  when (bool_decide (w_type wr = SET) && truthy (w_data wr))
       (batchAppend (batches !! 0) (OpSet (w_ref wr) (w_data wr))).

(** The body of [for (const chunk of chunkWrites)]. *)
Definition writeChunk (fs : FirebaseFirestore) (batches : list nat)
    (chunk : list Write) : M (list nat) :=
  batch <- writeDocs fs ;;
  forOf chunk (applyWrite batches) ;;
  ret (batches ++ [batch])%list.

Definition writeBatch (fs : FirebaseFirestore) (writes : list Write)
  : M (settled FirestoreError (list unit)) :=
  batches <- (if (500 <? length writes)%nat
              then forOfWith (chunk writes 500) (writeChunk fs) []
              else ret []) ;;
  (if (length writes <=? 500)%nat
   then forOf writes (applyWrite batches)
   else ret tt) ;;
  commits <- mapM commit batches ;;
  ret (promiseAll commits).

End Client.

(** ** Reference shaping and concrete instances *)

(** The merge the specification describes for field requests: each path
    is shaped around the value retrieved for it, and the shaped objects
    are spread into the result one after the other. *)
Fixpoint shapeLoop_spec (d : list FieldValue) (data : value) : completion value :=
  match d with
  | [] => Normal data
  | v :: rest =>
      match parseFieldPathCast (fv_fieldPath v) (fv_data v) with
      | Normal shaped => shapeLoop_spec rest (spreadValues data shaped)
      | Throw => Throw
      end
  end.

(** A [Set] or [Update] entry that carries no payload. *)
Definition payloadless {DocumentReference : Type} (wr : @Write DocumentReference) : Prop :=
  (w_type wr = SET ∨ w_type wr = UPDATE) ∧ w_data wr = VUndefined.

(** A client on which nothing has happened yet. *)
Definition emptyWorld {FirebaseFirestore DocumentReference Query Callback : Type}
  : @world FirebaseFirestore DocumentReference Query Callback :=
  {| heap := []; commitLog := []; listeners := []; deletions := [] |}.

(** Snapshots of the examples. Their [exists] is the method of the
    client, which the wrappers hand on without calling it. *)
Local Abbreviation Snapshot0 := (@DocumentSnapshot unit unit string (unit → bool)).

(** A stored document [{a: 1}] with id "1", on a client whose [get]
    needs its receiver: called bare it throws a [TypeError]. *)
Definition docA1 : Snapshot0 :=
  {| snap_exists := λ _, true;
     snap_get := λ fp _, match fp with
                         | FPString "a" | FPObject ["a"] => VNum 1
                         | _ => VUndefined
                         end;
     snap_get_detached := λ _ _, Throws TypeError;
     snap_id := "1";
     snap_metadata := tt;
     snap_data := λ _, VObj {[ "a" := VNum 1 ]} |}.

(** The same document on a client whose [get] works without receiver. *)
Definition docA1Lenient : Snapshot0 :=
  {| snap_exists := λ _, true;
     snap_get := snap_get docA1;
     snap_get_detached := λ fp o, Returns (snap_get docA1 fp o);
     snap_id := "1";
     snap_metadata := tt;
     snap_data := snap_data docA1 |}.

(** A store in which every document reads as [docA1]. *)
Definition getDocumentA1 (ref : string) : settled string Snapshot0 :=
  Fulfilled docA1.

Definition getDocumentA1Lenient (ref : string) : settled string Snapshot0 :=
  Fulfilled docA1Lenient.

(** A client that takes every deletion and, for [set] and [update],
    the payloads that are objects. *)
#[global] Instance objectPayloads : @BatchChecks string string :=
  λ _ o, match o with
         | OpDelete _ => true
         | OpSet _ data | OpUpdate _ data =>
             match data with
             | VObj _ => true
             | _ => false
             end
         end.

(** Commits that always succeed, in the order of their handles. *)
Definition commitFulfils (h : nat) (ops : list (@op string)) : promise string unit :=
  {| settleTime := h; outcome := Fulfilled tt |}.

Local Abbreviation World0 := (@world string string string nat).

(** An observer with a [next] callback only. *)
Definition cbNext : @observer nat :=
  {| complete := None; on_error := None; next := Some 0 |}.

(** Requests for the paths "a.b" and "a.c", with the values retrieved. *)
Definition fieldAB : FieldValue := {| fv_data := VNum 1; fv_fieldPath := FPString "a.b" |}.
Definition fieldAC : FieldValue := {| fv_data := VNum 2; fv_fieldPath := FPString "a.c" |}.

Definition setWithoutData (ref : string) : @Write string :=
  {| w_type := SET; w_data := VUndefined; w_ref := ref |}.

Definition deleteOf (ref : string) : @Write string :=
  {| w_type := DELETE; w_data := VUndefined; w_ref := ref |}.

Definition setOf (ref : string) (data : value) : @Write string :=
  {| w_type := SET; w_data := data; w_ref := ref |}.

(** [n] [Set] writes, each carrying the payload [{}]. *)
Definition setsWithData (n : nat) : list (@Write string) :=
  replicate n (setOf "users/1" (VObj ∅)).

(** ** Query reads, lines 50-52 and 99-161 *)

Section Queries.
Context {DocumentReference Query : Type}.
Context {SnapshotOptions SnapshotMetadata FirestoreError SnapshotExists : Type}.

(** An element of [QuerySnapshot.docs]: a document snapshot that also
    carries the reference of its document. *)
Record QueryDocumentSnapshot := {
  qds_ref : DocumentReference;
  qds_doc : @DocumentSnapshot SnapshotOptions SnapshotMetadata FirestoreError
                              SnapshotExists }.

(** An element of the rest parameter of [getDocs]: the path is a string. *)
Record StringFieldRequest := {
  sfr_fieldPath : string;
  sfr_options : option SnapshotOptions }.

Variable getDocuments : Query → settled FirestoreError (list QueryDocumentSnapshot).


(** The callback of [getFields.map] at line 109: [snap.get(..)], called
    on the snapshot. *)
Definition retrieveBound (snap : QueryDocumentSnapshot) (gf : StringFieldRequest)
  : FieldValue :=
  {| fv_data := snap_get (qds_doc snap) (FPString (sfr_fieldPath gf)) (sfr_options gf);
     fv_fieldPath := FPString (sfr_fieldPath gf) |}.

(** The callback of [getFields.map] at line 132: [get(..)], taken out
    of the snapshot at line 130 and called without receiver. *)
Definition retrieveBare (snap : QueryDocumentSnapshot) (gf : StringFieldRequest)
  : returned (error FirestoreError) FieldValue :=
  match snap_get_detached (qds_doc snap) (FPString (sfr_fieldPath gf)) (sfr_options gf) with
  | Throws e => Throws e
  | Returns v => Returns {| fv_data := v; fv_fieldPath := FPString (sfr_fieldPath gf) |}
  end.

(** The callback of the first [snaps.map], lines 107-127. *)
Definition dataOfSnapshot (getFields : list StringFieldRequest)
    (snap : QueryDocumentSnapshot)
  : returned (error FirestoreError) (@DocResult SnapshotMetadata SnapshotExists) :=
  if (0 <? length getFields)%nat then
    match shapeLoop (retrieveBound snap <$> getFields) (VObj ∅) with
    | Throw => Throws TypeError
    | Normal data => Returns (DataOnly data)
    end
  else Returns (DataOnly (snap_data (qds_doc snap) None)).

(** The callback of the second [snaps.map], lines 129-160. *)
Definition resultOfSnapshot (getFields : list StringFieldRequest)
    (snap : QueryDocumentSnapshot)
  : returned (error FirestoreError) (@DocResult SnapshotMetadata SnapshotExists) :=
  if (0 <? length getFields)%nat then
    match mapR (retrieveBare snap) getFields with
    | Throws e => Throws e
    | Returns d =>
        match shapeLoop d (VObj ∅) with
        | Throw => Throws TypeError
        | Normal data =>
            Returns (WithMeta data (snap_exists (qds_doc snap)) (snap_id (qds_doc snap))
                              (snap_metadata (qds_doc snap)))
        end
    end
  else Returns (WithMeta (snap_data (qds_doc snap) None)
                         (snap_exists (qds_doc snap)) (snap_id (qds_doc snap))
                         (snap_metadata (qds_doc snap))).

(** [getDocs(query, dataOnly, options, ...getFields)], lines 99-161. The
    parameter [options] is not read: [snap.data()] is called without
    argument. *)
Definition getDocs (query : Query) (dataOnly : bool)
    (opts : option SnapshotOptions) (getFields : list StringFieldRequest)
  : settled (error FirestoreError) (list (@DocResult SnapshotMetadata SnapshotExists)) :=
  match getDocuments query with
  | Rejected e => Rejected (ClientError e)
  | Fulfilled snaps =>
      match (if dataOnly
             then mapR (dataOfSnapshot getFields) snaps
             else mapR (resultOfSnapshot getFields) snaps) with
      | Throws e => Rejected e
      | Returns results => Fulfilled results
      end
  end.

End Queries.

(** ** Vocabulary of the further properties *)

(** Number of separators in a path. *)
Fixpoint count_dots (s : string) : nat :=
  match s with
  | EmptyString => 0
  | String c r => (if is_dot c then 1 else 0) + count_dots r
  end.

(** Values that are not objects. *)
Definition isLeaf (v : value) : bool :=
  match v with
  | VObj _ => false
  | _ => true
  end.

(** The top-level key a string request writes to. *)
Definition firstSegment (fp : string) : string := index0 (str_split fp).

(** The request of [getDoc] that a request of [getDocs] amounts to. *)
Definition toFieldRequest {SnapshotOptions : Type}
    (gf : @StringFieldRequest SnapshotOptions) : @FieldRequest SnapshotOptions :=
  {| fieldPath := FPString (sfr_fieldPath gf); options := sfr_options gf |}.

(** The payload of a result, with or without its envelope. *)
Definition resultData {SnapshotMetadata SnapshotExists : Type}
    (r : @DocResult SnapshotMetadata SnapshotExists) : value :=
  match r with
  | DataOnly data => data
  | WithMeta data _ _ _ => data
  end.

(** The operations the three [if] statements of the writer's loop body
    append for one write, in statement order. *)
Definition writeOps {DocumentReference : Type} (wr : @Write DocumentReference)
  : list (@op DocumentReference) :=
  ((if bool_decide (w_type wr = UPDATE) && truthy (w_data wr)
    then [OpUpdate (w_ref wr) (w_data wr)] else [])
   ++ (if bool_decide (w_type wr = DELETE) then [OpDelete (w_ref wr)] else [])
   ++ (if bool_decide (w_type wr = SET) && truthy (w_data wr)
       then [OpSet (w_ref wr) (w_data wr)] else []))%list.

(** A write for which the loop body appends something. *)
Definition effective {DocumentReference : Type} (wr : @Write DocumentReference) : bool :=
  bool_decide (w_type wr = DELETE) || truthy (w_data wr).

(** The batch objects after [ops] were appended to the batch [h]. *)
Definition pushOps {FirebaseFirestore DocumentReference : Type} (h : nat)
    (ops : list (@op DocumentReference))
    (batches : list (@WriteBatchObj FirebaseFirestore DocumentReference))
  : list (@WriteBatchObj FirebaseFirestore DocumentReference) :=
  alter (λ obj, {| wb_owner := wb_owner obj; wb_ops := wb_ops obj ++ ops |}) h batches.

(** The client with its batch objects replaced. *)
Definition withHeap {FirebaseFirestore DocumentReference Query Callback : Type}
    (w : @world FirebaseFirestore DocumentReference Query Callback)
    (batches : list (@WriteBatchObj FirebaseFirestore DocumentReference))
  : @world FirebaseFirestore DocumentReference Query Callback :=
  {| heap := batches;
     commitLog := commitLog w;
     listeners := listeners w;
     deletions := deletions w |}.

(** What a call of the writer may do to the client: registrations,
    deletions and the log of commits are as before, and the batches
    that existed are still there, unchanged. *)
Definition extendsClient {FirebaseFirestore DocumentReference Query Callback : Type}
    (w w' : @world FirebaseFirestore DocumentReference Query Callback) : Prop :=
  listeners w' = listeners w ∧ deletions w' = deletions w
  ∧ commitLog w' = commitLog w ∧ heap w `prefix_of` heap w'.

(** A query over two documents, [{a: 1}] twice under different
    references, and one whose read fails. *)
Definition getDocumentsA1 (query : string)
  : settled string (list (@QueryDocumentSnapshot string unit unit string (unit → bool))) :=
  if String.eqb query "users"
  then Fulfilled [ {| qds_ref := "users/1"; qds_doc := docA1 |};
                   {| qds_ref := "users/2"; qds_doc := docA1 |} ]
  else Rejected "permission-denied".

(** A request list of [getDocs] for the path "a.b". *)
Definition requestAB : list (@StringFieldRequest unit) :=
  [ {| sfr_fieldPath := "a.b"; sfr_options := None |} ].

(** Commits of which the one on batch 1 fails first. *)
Definition commitSecondFails (h : nat) (ops : list (@op string)) : promise string unit :=
  {| settleTime := 10 - h;
     outcome := if (h =? 0)%nat then Fulfilled tt else Rejected "unavailable" |}.

(** Requests of [getDoc] for the paths "a.b", "a.c" and "d". *)
Definition requestsABCD : list (@FieldRequest unit) :=
  [ {| fieldPath := FPString "a.b"; options := None |};
    {| fieldPath := FPString "a.c"; options := None |};
    {| fieldPath := FPString "d"; options := None |} ].

(** What the loop of [getDoc] builds for these requests: each step nests
    the object built so far. *)
Definition shapedABCD : value :=
  let ab := VObj {[ "a" := VObj {[ "b" := VObj ∅ ]} ]} in
  let ac := VObj {[ "a" := VObj {[ "c" := ab ]} ]} in
  VObj {[ "a" := VObj {[ "c" := ab ]}; "d" := ac ]}.

(** The two documents of the query "users". *)
Definition usersSnapshots : list (@QueryDocumentSnapshot string unit unit string (unit → bool)) :=
  [ {| qds_ref := "users/1"; qds_doc := docA1 |};
    {| qds_ref := "users/2"; qds_doc := docA1 |} ].

(** 500 [Set] writes without payload followed by one [Delete]. *)
Definition mixedWrites : list (@Write string) :=
  (replicate 500 (setWithoutData "users/1") ++ [deleteOf "users/2"])%list.

(** 500 [Set] writes without payload followed by a [Set] of the number
    1, a payload the client refuses. *)
Definition refusedWrites : list (@Write string) :=
  (replicate 500 (setWithoutData "users/1") ++ [setOf "users/2" (VNum 1)])%list.

(** A [Set] whose payload is the number 0. *)
Definition setZero : @Write string :=
  {| w_type := SET; w_data := VNum 0; w_ref := "users/1" |}.

(** * Properties *)

(** ** The shaper *)

(** One step of the source function, as an equation on open terms. *)
Lemma parseFieldPath_step fp data :
  parseFieldPath fp data =
  match drop 1 (str_split fp) with
  | [] => VObj {[ index0 (str_split fp) := data ]}
  | r :: rs =>
      VObj (<[ index0 (str_split fp) := parseFieldPath (str_join (r :: rs)) data ]>
              {[ index0 (str_split fp) := data ]})
  end.
Proof.
  funelim (parseFieldPath fp data).
  - by rewrite e.
  - by rewrite Hrest.
Qed.

(** The recursion rebuilds exactly the nesting of the split segments. *)
Lemma parseFieldPath_nest fp data :
  parseFieldPath fp data = nest (str_split fp) data.
Proof.
  remember (String.length fp) as n eqn:Hn.
  revert fp Hn. induction (lt_wf n) as [n _ IH]. intros fp ->.
  rewrite parseFieldPath_step.
  pose proof (str_split_dot_free fp) as Hfree.
  destruct (str_split fp) as [|h t] eqn:Hsplit; [by apply str_split_nonempty in Hsplit|].
  change (drop 1 (h :: t)) with t. change (index0 (h :: t)) with h.
  destruct t as [|r rs]; [done|].
  rewrite insert_singleton_eq. simpl. do 2 f_equal.
  assert (Hlt : String.length (str_join (r :: rs)) < String.length fp).
  { apply str_join_tail_shorter. by rewrite Hsplit. }
  rewrite (IH _ Hlt _ eq_refl).
  rewrite str_split_join; [done..|]. by inversion Hfree.
Qed.

Lemma depth_singleton k v : depth (VObj {[ k := v ]}) = S (depth v).
Proof. simpl. rewrite map_fold_singleton. lia. Qed.

Lemma depth_nest segs v : depth (nest segs v) = length segs + depth v.
Proof.
  induction segs as [|s rest IH]; [done|].
  cbn [nest]. rewrite depth_singleton, IH. reflexivity.
Qed.

Lemma getPath_nest segs v : getPath segs (nest segs v) = Some v.
Proof.
  induction segs as [|s rest IH]; [done|].
  cbn [nest getPath getProp]. by rewrite lookup_singleton_eq.
Qed.

Lemma nest_app segs1 segs2 v : nest (segs1 ++ segs2) v = nest segs1 (nest segs2 v).
Proof. induction segs1 as [|s rest IH]; [done|]. simpl. by rewrite IH. Qed.

Lemma str_split_snoc_dot s : str_split (s ++ ".") = (str_split s ++ [""])%list.
Proof.
  induction s as [|c r IH]; [done|]. simpl.
  destruct (is_dot c); rewrite IH; [done|].
  destruct (str_split r) as [|h t] eqn:Hr; [by apply str_split_nonempty in Hr|done].
Qed.

(** A dot-free first segment is peeled off as the outermost key. *)
Lemma parseFieldPath_cons k rest v :
  dot_free k = true →
  parseFieldPath (k ++ "." ++ rest) v = VObj {[ k := parseFieldPath rest v ]}.
Proof.
  intros Hk. by rewrite !parseFieldPath_nest, str_split_app.
Qed.

(** C3. For a non-empty dot-free key [k], shaping yields exactly
    [{k: v}]; for a path made of the dot-free segments [s0 ... sn] it
    yields the nested mapping [{s0: {s1: ... {sn: v}}}], which wraps [v]
    in as many object layers as there are segments, [v] being found by
    following the segments in order. *)
Theorem parseFieldPath_shape (k : string) (segs : list string) (v : value) :
  k ≠ "" → dot_free k = true →
  segs ≠ [] → Forall (λ s, dot_free s = true) segs →
  parseFieldPath k v = VObj {[ k := v ]}
  ∧ parseFieldPath (str_join segs) v = nest segs v
  ∧ depth (parseFieldPath (str_join segs) v) = length segs + depth v
  ∧ getPath segs (parseFieldPath (str_join segs) v) = Some v.
Proof.
  intros _ Hk Hne Hfree.
  assert (Hnest : parseFieldPath (str_join segs) v = nest segs v).
  { by rewrite parseFieldPath_nest, str_split_join. }
  split; [|split; [done|split]].
  - by rewrite parseFieldPath_nest, str_split_dot_free_string.
  - rewrite Hnest. apply depth_nest.
  - rewrite Hnest. apply getPath_nest.
Qed.

Lemma parseFieldPath_shape_witness :
  ("a" ≠ "" ∧ dot_free "a" = true ∧ ["a"; "b"; "c"] ≠ []
   ∧ Forall (λ s, dot_free s = true) ["a"; "b"; "c"])
  ∧ (parseFieldPath "a" (VNum 1) = VObj {[ "a" := VNum 1 ]}
     ∧ parseFieldPath (str_join ["a"; "b"; "c"]) (VNum 1)
       = nest ["a"; "b"; "c"] (VNum 1)
     ∧ depth (parseFieldPath (str_join ["a"; "b"; "c"]) (VNum 1))
       = length ["a"; "b"; "c"] + depth (VNum 1)
     ∧ getPath ["a"; "b"; "c"] (parseFieldPath (str_join ["a"; "b"; "c"]) (VNum 1))
       = Some (VNum 1)).
Proof.
  assert (H1 : "a" ≠ "") by discriminate.
  assert (H2 : dot_free "a" = true) by reflexivity.
  assert (H3 : ["a"; "b"; "c"] ≠ []) by discriminate.
  assert (H4 : Forall (λ s, dot_free s = true) ["a"; "b"; "c"])
    by (repeat constructor).
  split; [done|].
  exact (parseFieldPath_shape "a" ["a"; "b"; "c"] (VNum 1) H1 H2 H3 H4).
Defined.

(** C8. For every non-empty path the shaper returns a mapping, the
    nesting of the path's segments; there is no failing case. An empty
    segment becomes the key [""]: in front of a leading dot, behind a
    trailing dot, and between two adjacent dots. *)
Theorem parseFieldPath_total (fp a : string) (v : value) :
  fp ≠ "" → dot_free a = true →
  parseFieldPath fp v = nest (str_split fp) v
  ∧ getPath (str_split fp) (parseFieldPath fp v) = Some v
  ∧ parseFieldPath ("." ++ fp) v = VObj {[ "" := parseFieldPath fp v ]}
  ∧ parseFieldPath (fp ++ ".") v = nest (str_split fp) (VObj {[ "" := v ]})
  ∧ parseFieldPath (a ++ ".." ++ fp) v
    = VObj {[ a := VObj {[ "" := parseFieldPath fp v ]} ]}.
Proof.
  intros _ Ha. repeat split.
  - apply parseFieldPath_nest.
  - rewrite parseFieldPath_nest. apply getPath_nest.
  - change ("." ++ fp) with ("" ++ "." ++ fp).
    by rewrite (parseFieldPath_cons "" fp v).
  - by rewrite parseFieldPath_nest, str_split_snoc_dot, nest_app.
  - change (a ++ ".." ++ fp) with (a ++ "." ++ ("" ++ "." ++ fp)).
    by rewrite (parseFieldPath_cons a), (parseFieldPath_cons "").
Qed.

Lemma parseFieldPath_total_witness :
  ("x" ≠ "" ∧ dot_free "a" = true)
  ∧ (parseFieldPath "x" VNull = nest (str_split "x") VNull
     ∧ getPath (str_split "x") (parseFieldPath "x" VNull) = Some VNull
     ∧ parseFieldPath ("." ++ "x") VNull = VObj {[ "" := parseFieldPath "x" VNull ]}
     ∧ parseFieldPath ("x" ++ ".") VNull = nest (str_split "x") (VObj {[ "" := VNull ]})
     ∧ parseFieldPath ("a" ++ ".." ++ "x") VNull
       = VObj {[ "a" := VObj {[ "" := parseFieldPath "x" VNull ]} ]}).
Proof.
  assert (H1 : "x" ≠ "") by discriminate.
  assert (H2 : dot_free "a" = true) by reflexivity.
  split; [done|].
  exact (parseFieldPath_total "x" "a" VNull H1 H2).
Defined.

(** ** The wrappers *)

Section ClientProperties.
Context {FirebaseFirestore DocumentReference Query : Type}.
Context {SnapshotOptions SnapshotMetadata FirestoreError Callback : Type}.

Local Abbreviation World := (@world FirebaseFirestore DocumentReference Query Callback).
Local Abbreviation Promise := (promise FirestoreError unit).

Variable commitOutcome : nat → list (@op DocumentReference) → Promise.
Variable deleteOutcome : DocumentReference → Promise.

(** *** Shaping several field paths *)

Lemma parseFieldPath_top fp data :
  ∃ inner, parseFieldPath fp data = VObj {[ index0 (str_split fp) := inner ]}.
Proof.
  rewrite parseFieldPath_nest.
  destruct (str_split fp) as [|h t] eqn:Hs; [by apply str_split_nonempty in Hs|].
  by exists (nest t data).
Qed.

Lemma getProp_spread_new data k inner :
  getProp k (spreadValues data (VObj {[ k := inner ]})) = Some inner.
Proof.
  unfold spreadValues, spread. cbn [getProp ownProps].
  apply lookup_union_Some_l, lookup_singleton_eq.
Qed.

Lemma getProp_spread_other data k k' inner :
  k' ≠ k →
  getProp k' (spreadValues data (VObj {[ k := inner ]})) = ownProps data !! k'.
Proof.
  intros Hne. unfold spreadValues, spread. cbn [getProp ownProps].
  apply lookup_union_r. by apply lookup_singleton_ne.
Qed.

(** The loop never looks at the values retrieved from the snapshot. *)
Lemma shapeLoop_ignores_retrieved (d : list FieldValue) (data : value) :
  shapeLoop d data
  = shapeLoop ((λ v, {| fv_data := VUndefined; fv_fieldPath := fv_fieldPath v |}) <$> d) data.
Proof.
  revert data. induction d as [|v rest IH]; intros data; [done|].
  cbn [fmap list_fmap shapeLoop]. unfold shapeStep. cbn [fv_fieldPath].
  destruct (parseFieldPathCast (fv_fieldPath v) data); [apply IH|done].
Qed.

Lemma shapeLoop_app (d1 d2 : list FieldValue) (data : value) :
  shapeLoop (d1 ++ d2) data
  = match shapeLoop d1 data with
    | Normal data' => shapeLoop d2 data'
    | Throw => Throw
    end.
Proof.
  revert data. induction d1 as [|v rest IH]; intros data; [done|].
  cbn [app shapeLoop]. destruct (shapeStep data v); [apply IH|done].
Qed.

Lemma shapeStep_string (v : FieldValue) (p : string) (data : value) :
  fv_fieldPath v = FPString p →
  shapeStep data v = Normal (spreadValues data (parseFieldPath p data)).
Proof. intros Hp. unfold shapeStep. by rewrite Hp. Qed.

(** What one request leaves at its first segment, and elsewhere. *)
Lemma spread_shaped_top (p : string) (data : value) :
  getProp (index0 (str_split p)) (spreadValues data (parseFieldPath p data))
  = getProp (index0 (str_split p)) (parseFieldPath p data)
  ∧ getProp (index0 (str_split p)) (parseFieldPath p data)
    = Some (nest (drop 1 (str_split p)) data)
  ∧ ∀ k', k' ≠ index0 (str_split p) →
      getProp k' (spreadValues data (parseFieldPath p data)) = ownProps data !! k'.
Proof.
  rewrite parseFieldPath_nest.
  destruct (str_split p) as [|h t] eqn:Hs; [by apply str_split_nonempty in Hs|].
  change (index0 (h :: t)) with h. change (drop 1 (h :: t)) with t. cbn [nest].
  rewrite getProp_spread_new. cbn [getProp]. rewrite lookup_singleton_eq.
  repeat split. intros k' Hne. by apply getProp_spread_other.
Qed.

(** C9. In the field-request loop, let a request for [p1] be followed,
    immediately or later, by a request for [p2] with the same first
    segment [k]. Once the later request is processed, the merged object
    holds at [k] exactly what shaping [p2] produced: the property written
    for [p1] is replaced, not merged into. Every other top-level key is
    left as it was. *)
Theorem shapeLoop_later_overwrites
    (pre mid : list FieldValue) (v1 v2 : FieldValue) (p1 p2 : string)
    (data0 dataPre dataMid : value) :
  fv_fieldPath v1 = FPString p1 → fv_fieldPath v2 = FPString p2 →
  index0 (str_split p1) = index0 (str_split p2) →
  shapeLoop pre data0 = Normal dataPre →
  shapeLoop mid (spreadValues dataPre (parseFieldPath p1 dataPre)) = Normal dataMid →
  let k := index0 (str_split p2) in
  let data1 := spreadValues dataPre (parseFieldPath p1 dataPre) in
  let data2 := spreadValues dataMid (parseFieldPath p2 dataMid) in
  shapeLoop (pre ++ [v1]) data0 = Normal data1
  ∧ shapeLoop (pre ++ v1 :: mid ++ [v2]) data0 = Normal data2
  ∧ getProp k data1 = Some (nest (drop 1 (str_split p1)) dataPre)
  ∧ getProp k data2 = getProp k (parseFieldPath p2 dataMid)
  ∧ getProp k data2 = Some (nest (drop 1 (str_split p2)) dataMid)
  ∧ (∀ k', k' ≠ k → getProp k' data2 = getProp k' dataMid).
Proof.
  intros H1 H2 Hk Hpre Hmid k data1 data2.
  destruct (spread_shaped_top p1 dataPre) as (Ha1 & Hb1 & _).
  destruct (spread_shaped_top p2 dataMid) as (Ha2 & Hb2 & Hc2).
  repeat split.
  - rewrite shapeLoop_app, Hpre. cbn [shapeLoop]. by rewrite (shapeStep_string v1 p1).
  - rewrite shapeLoop_app, Hpre. cbn [shapeLoop]. rewrite (shapeStep_string v1 p1) by done.
    rewrite shapeLoop_app, Hmid. cbn [shapeLoop].
    by rewrite (shapeStep_string v2 p2).
  - subst k data1. rewrite <- Hk. by rewrite Ha1.
  - exact Ha2.
  - subst k data2. by rewrite Ha2.
  - intros k' Hne. subst data2. rewrite Hc2 by done.
    clear. by destruct dataMid.
Qed.

(** *** Listeners *)

(** C6, as the code has it. [listenDoc] and [listenDocs] make one
    snapshot-subscription call, on the reference (the query) with an
    observer holding the three callbacks of [cb], and return
    [undefined]: the registration handle of that call is dropped. *)
Theorem listen_registers_returns_undefined
    (ref : DocumentReference) (query : Query) (cb : observer) (w : World) :
  let obs := {| complete := complete cb; on_error := on_error cb; next := next cb |} in
  listenDoc ref cb w = (Normal RetUndefined, snd (onSnapshot (TDoc ref) obs w))
  ∧ listenDocs query cb w = (Normal RetUndefined, snd (onSnapshot (TQuery query) obs w))
  ∧ listeners (snd (listenDoc ref cb w)) = (listeners w ++ [(TDoc ref, obs)])%list
  ∧ listeners (snd (listenDocs query cb w)) = (listeners w ++ [(TQuery query, obs)])%list.
Proof. by repeat split. Qed.

(** *** Deletion *)

(** C10. [delDoc] does not use its database handle: whatever handle is
    passed, it performs the same deletion call of the client library,
    the one on [ref]. *)
Theorem delDoc_ignores_handle
    (fs1 fs2 : FirebaseFirestore) (ref : DocumentReference) (w : World) :
  delDoc deleteOutcome fs1 ref w = delDoc deleteOutcome fs2 ref w
  ∧ delDoc deleteOutcome fs1 ref w = deleteDoc deleteOutcome ref w.
Proof. by split. Qed.

End ClientProperties.

(** ** The chunked batch writer *)

Section WriterProperties.
Context {FirebaseFirestore DocumentReference Query : Type}.
Context {FirestoreError Callback : Type}.
Context {checks : @BatchChecks FirebaseFirestore DocumentReference}.

Local Abbreviation World := (@world FirebaseFirestore DocumentReference Query Callback).
Local Abbreviation Promise := (promise FirestoreError unit).
Local Abbreviation WriteOf := (@Write DocumentReference).

Variable commitOutcome : nat → list (@op DocumentReference) → Promise.

Lemma forOf_app {A} (l1 l2 : list A) (body : A → M unit) (w : World) :
  forOf (l1 ++ l2) body w = bind (forOf l1 body) (λ _, forOf l2 body) w.
Proof.
  revert w. induction l1 as [|x rest IH]; intros w; [done|].
  cbn [app forOf]. unfold bind at 1 2 3.
  destruct (body x w) as [[[]|] w']; [|done].
  rewrite IH. reflexivity.
Qed.

(** A [Set] or [Update] whose [data] is falsy runs none of the three
    statements, whatever [batches] holds. *)
Lemma applyWrite_falsy (batches : list nat) (wr : WriteOf) (w : World) :
  w_type wr = SET ∨ w_type wr = UPDATE → truthy (w_data wr) = false →
  applyWrite batches wr w = (Normal tt, w).
Proof.
  intros Hty Hd. unfold applyWrite. rewrite Hd.
  destruct Hty as [-> | ->]; reflexivity.
Qed.

Lemma applyWrite_delete (batches : list nat) (ref : DocumentReference)
    (d : value) (w : World) :
  applyWrite batches {| w_type := DELETE; w_data := d; w_ref := ref |} w
  = batchAppend (batches !! 0) (OpDelete ref) w.
Proof.
  unfold applyWrite. cbn [w_type w_data w_ref].
  destruct (batches !! 0) as [h|]; [|reflexivity].
  change (bool_decide (DELETE = UPDATE)) with false.
  change (bool_decide (DELETE = DELETE)) with true.
  change (bool_decide (DELETE = SET)) with false.
  cbn [andb when]. unfold bind, ret, batchAppend.
  destruct (batchAccepts w h (OpDelete ref)); reflexivity.
Qed.

(** With no batch in the array, a write either is skipped or throws; the
    client is not touched. *)
Lemma applyWrite_no_batch (wr : WriteOf) (w : World) :
  applyWrite [] wr w = (Normal tt, w) ∨ applyWrite [] wr w = (Throw, w).
Proof.
  unfold applyWrite. cbn [lookup list_lookup].
  destruct (w_type wr), (truthy (w_data wr)); auto.
Qed.

Lemma forOf_no_batch (writes : list WriteOf) (w : World) :
  forOf writes (applyWrite []) w = (Normal tt, w)
  ∨ forOf writes (applyWrite []) w = (Throw, w).
Proof.
  induction writes as [|wr rest IH]; [by left|].
  cbn [forOf]. unfold bind.
  destruct (applyWrite_no_batch wr w) as [-> | ->]; [exact IH|by right].
Qed.

(** At most 500 writes: no batch is opened and no commit is issued. *)
Lemma writeBatch_small (fs : FirebaseFirestore) (writes : list WriteOf) (w : World) :
  (length writes ≤ 500)%nat →
  writeBatch commitOutcome fs writes w = (Normal (Fulfilled []), w)
  ∨ writeBatch commitOutcome fs writes w = (Throw, w).
Proof.
  intros Hlen.
  assert (Hrun : writeBatch commitOutcome fs writes w
                 = bind (forOf writes (applyWrite [])) (λ _, ret (Fulfilled [])) w).
  { unfold writeBatch.
    replace (500 <? length writes)%nat with false by (symmetry; apply Nat.ltb_ge; lia).
    replace (length writes <=? 500)%nat with true by (symmetry; apply Nat.leb_le; lia).
    reflexivity. }
  rewrite Hrun. unfold bind.
  destruct (forOf_no_batch writes w) as [-> | ->]; [by left|by right].
Qed.

(** C7. A [Set] or [Update] entry without payload makes the loop body do
    nothing: no operation is appended to any batch and nothing is thrown,
    so the entry can be dropped from the loop without changing its
    effect. A [Delete] entry appends its deletion whatever its payload
    field holds. *)
Theorem applyWrite_absent_payload
    (batches : list nat) (wr : WriteOf) (pre post : list WriteOf)
    (ref : DocumentReference) (d : value) (w : World) :
  w_type wr = SET ∨ w_type wr = UPDATE → w_data wr = VUndefined →
  applyWrite batches wr w = (Normal tt, w)
  ∧ forOf (pre ++ wr :: post) (applyWrite batches) w
    = forOf (pre ++ post) (applyWrite batches) w
  ∧ applyWrite batches {| w_type := DELETE; w_data := d; w_ref := ref |} w
    = batchAppend (batches !! 0) (OpDelete ref) w.
Proof.
  intros Hty Hd.
  assert (Hskip : ∀ w' : World, applyWrite batches wr w' = (Normal tt, w')).
  { intros w'. apply applyWrite_falsy; [done|]. by rewrite Hd. }
  split; [apply Hskip|split; [|apply applyWrite_delete]].
  rewrite !forOf_app. unfold bind.
  destruct (forOf pre (applyWrite batches) w) as [[[]|] w']; [|done].
  cbn [forOf]. unfold bind. by rewrite Hskip.
Qed.

Lemma writeBatch_nil (fs : FirebaseFirestore) (w : World) :
  writeBatch commitOutcome fs [] w = (Normal (Fulfilled []), w).
Proof. reflexivity. Qed.

(** C5, at a single [Delete]: the call throws before any commit exists,
    whatever the commits would have answered. *)
Theorem writeBatch_single_delete_throws
    (fs : FirebaseFirestore) (ref : DocumentReference) (d : value) (w : World) :
  writeBatch commitOutcome fs [{| w_type := DELETE; w_data := d; w_ref := ref |}] w
  = (Throw, w).
Proof. reflexivity. Qed.

(** *** Where operations land *)

(** The loop body, seen through the operations it appends: none, or one
    method call on [batches[0]]. *)
Lemma applyWrite_eq (batches : list nat) (wr : WriteOf) (w : World) :
  applyWrite batches wr w
  = match writeOps wr with
    | [] => (Normal tt, w)
    | o :: _ => batchAppend (batches !! 0) o w
    end.
Proof.
  unfold applyWrite, writeOps.
  destruct (w_type wr), (truthy (w_data wr)); try reflexivity.
  all: destruct (batches !! 0) as [h|]; [|reflexivity].
  all: cbv beta iota delta [bind when ret batchAppend andb app bool_decide decide_rel
                             WriteType_eq_dec WriteType_rect WriteType_rec sumbool_rec
                             sumbool_rect].
  all: match goal with
       | |- context [batchAccepts ?w' ?h' ?o] =>
           destruct (batchAccepts w' h' o); reflexivity
       end.
Qed.

(** Appending touches the batch it is called on, and no other. *)
Lemma batchAppend_heap (h0 : nat) (o : @op DocumentReference) (w : World) :
  length (heap (snd (batchAppend (Some h0) o w))) = length (heap w)
  ∧ ∀ h, h ≠ h0 → heap (snd (batchAppend (Some h0) o w)) !! h = heap w !! h.
Proof.
  unfold batchAppend. destruct (batchAccepts w h0 o); cbn [snd heap]; [|done].
  split; [apply length_alter|]. intros h Hne. by apply list_lookup_alter_ne.
Qed.

(** Every operation of a write goes to [batches[0]]. *)
Lemma applyWrite_heap (batches : list nat) (h0 : nat) (wr : WriteOf) (w : World) :
  batches !! 0 = Some h0 →
  length (heap (snd (applyWrite batches wr w))) = length (heap w)
  ∧ ∀ h, h ≠ h0 → heap (snd (applyWrite batches wr w)) !! h = heap w !! h.
Proof.
  intros Hb. rewrite applyWrite_eq, Hb.
  destruct (writeOps wr) as [|o ?]; [done|]. apply batchAppend_heap.
Qed.

Lemma forOf_applyWrite_heap (batches : list nat) (h0 : nat)
    (writes : list WriteOf) (w : World) :
  batches !! 0 = Some h0 →
  length (heap (snd (forOf writes (applyWrite batches) w))) = length (heap w)
  ∧ ∀ h, h ≠ h0 → heap (snd (forOf writes (applyWrite batches) w)) !! h = heap w !! h.
Proof.
  intros Hb. revert w. induction writes as [|wr rest IH]; intros w; [done|].
  cbn [forOf]. unfold bind.
  destruct (applyWrite_heap batches h0 wr w Hb) as (Hlen & Hother).
  destruct (applyWrite batches wr w) as [[[]|] w1]; cbn [fst snd] in *; [|done].
  destruct (IH w1) as (Hlen' & Hother').
  split; [congruence|]. intros h Hne. by rewrite Hother', Hother.
Qed.

(** A chunk processed when the array already holds a batch: the batch
    opened for this chunk receives nothing, whether the chunk runs to
    its end (and the batch is pushed) or a write of it throws. *)
Lemma writeChunk_own_batch_empty (fs : FirebaseFirestore) (batches : list nat)
    (h0 : nat) (c : list WriteOf) (w : World) :
  batches !! 0 = Some h0 → (h0 < length (heap w))%nat →
  heap (snd (writeChunk fs batches c w)) !! length (heap w)
  = Some {| wb_owner := fs; wb_ops := [] |}
  ∧ ∀ batches', fst (writeChunk fs batches c w) = Normal batches' →
                batches' = (batches ++ [length (heap w)])%list.
Proof.
  intros Hb Hlt. unfold writeChunk, bind, writeDocs.
  set (w1 := {| heap := _ |}).
  destruct (forOf_applyWrite_heap batches h0 c w1 Hb) as (_ & Hother).
  destruct (forOf c (applyWrite batches) w1) as [[[]|] w2]; cbn [fst snd ret] in *.
  - split; [|by intros ? [= <-]].
    rewrite Hother by lia. subst w1. cbn [heap].
    by rewrite lookup_app_r, Nat.sub_diag by lia.
  - split; [|done].
    rewrite Hother by lia. subst w1. cbn [heap].
    by rewrite lookup_app_r, Nat.sub_diag by lia.
Qed.

(** Committing the array issues one commit per element, in order, and
    never throws. *)
Lemma mapM_commit (bs : list nat) (w : World) :
  mapM (commit commitOutcome) bs w
  = (Normal ((λ h, commitOutcome h (default [] (wb_ops <$> heap w !! h))) <$> bs),
     {| heap := heap w;
        commitLog := commitLog w
                     ++ ((λ h, (h, default [] (wb_ops <$> heap w !! h))) <$> bs);
        listeners := listeners w;
        deletions := deletions w |}).
Proof.
  revert w. induction bs as [|h rest IH]; intros w.
  - cbn. rewrite app_nil_r. by destruct w.
  - cbn [mapM]. unfold bind. unfold commit at 1. rewrite IH.
    cbn [heap commitLog listeners deletions ret fmap list_fmap].
    by rewrite <- app_assoc.
Qed.

(** *** Lists made of payload-less [Set] and [Update] entries *)

Lemma forOf_payloadless (batches : list nat) (writes : list WriteOf) (w : World) :
  Forall payloadless writes → forOf writes (applyWrite batches) w = (Normal tt, w).
Proof.
  induction 1 as [|wr rest [Hty Hd] _ IH]; [done|].
  cbn [forOf]. unfold bind. rewrite applyWrite_falsy by (by rewrite ?Hd). exact IH.
Qed.

Lemma forOfWith_payloadless (fs : FirebaseFirestore) (chunks : list (list WriteOf))
    (batches : list nat) (w : World) :
  Forall (Forall payloadless) chunks →
  ∃ batches' w',
    forOfWith chunks (writeChunk fs) batches w = (Normal batches', w')
    ∧ heap w' = (heap w ++ replicate (length chunks) {| wb_owner := fs; wb_ops := [] |})%list
    ∧ commitLog w' = commitLog w.
Proof.
  intros Hall. revert batches w.
  induction Hall as [|c rest Hc _ IH]; intros batches w.
  - exists batches, w. cbn. by rewrite app_nil_r.
  - cbn [forOfWith]. unfold bind at 1. unfold writeChunk, bind at 1 2, writeDocs.
    rewrite forOf_payloadless by done. unfold ret at 1.
    edestruct IH as (bs' & w' & -> & Hheap & Hlog).
    exists bs', w'. repeat split; [|done].
    rewrite Hheap. cbn [heap length replicate]. by rewrite <- app_assoc.
Qed.

Lemma chunk_Forall {A} (P : A → Prop) (l : list A) (size : nat) :
  Forall P l → Forall (Forall P) (chunk l size).
Proof.
  intros Hl. unfold chunk. destruct (size <? 1)%nat; [constructor|].
  apply Forall_fmap, Forall_forall. intros i _. cbn.
  by apply Forall_take, Forall_drop.
Qed.

(** Such a list never makes the call throw; the batches opened for it
    stay empty and the batches that existed before are untouched. *)
Lemma writeBatch_payloadless (fs : FirebaseFirestore) (writes : list WriteOf) (w : World) :
  Forall payloadless writes →
  ∃ r w' n,
    writeBatch commitOutcome fs writes w = (Normal r, w')
    ∧ heap w' = (heap w ++ replicate n {| wb_owner := fs; wb_ops := [] |})%list.
Proof.
  intros Hall. unfold writeBatch.
  destruct (500 <? length writes)%nat eqn:Hbig.
  - destruct (forOfWith_payloadless fs (chunk writes 500) [] w)
      as (bs & w1 & Hchunks & Hheap & _); [by apply chunk_Forall|].
    replace (length writes <=? 500)%nat with false
      by (symmetry; apply Nat.leb_gt; by apply Nat.ltb_lt).
    unfold bind at 1. rewrite Hchunks. unfold bind, ret at 1.
    rewrite mapM_commit. do 3 eexists. split; [done|]. exact Hheap.
  - replace (length writes <=? 500)%nat with true
      by (symmetry; apply Nat.leb_le; by apply Nat.ltb_ge).
    unfold bind at 1, ret at 1. unfold bind at 1.
    rewrite forOf_payloadless by done. unfold bind.
    rewrite mapM_commit. eexists _, _, 0. split; [reflexivity|].
    cbn. by rewrite app_nil_r.
Qed.

(** *** The commit stage *)

Lemma firstRejected_none {E A} (ps : list (promise E A)) :
  firstRejected ps = None ↔ Forall (λ p, ∃ a, outcome p = Fulfilled a) ps.
Proof.
  induction ps as [|p rest IH]; [by split; [constructor|]|].
  cbn [firstRejected]. destruct (outcome p) as [a|e] eqn:Ho.
  - rewrite IH. split; [intros H; constructor; eauto|by inversion 1].
  - split.
    + destruct (firstRejected rest) as [[t' e']|]; [|done]. by case_match.
    + inversion 1 as [|? ? [a Ha]]; subst. congruence.
Qed.

Lemma firstRejected_some {E A} (ps : list (promise E A)) (t : nat) (e : E) :
  firstRejected ps = Some (t, e) →
  (∃ p, p ∈ ps ∧ outcome p = Rejected e ∧ settleTime p = t)
  ∧ ∀ q e', q ∈ ps → outcome q = Rejected e' → (t ≤ settleTime q)%nat.
Proof.
  revert t e. induction ps as [|p rest IH]; intros t e; [done|].
  cbn [firstRejected]. destruct (outcome p) as [a|e0] eqn:Ho.
  - intros Hr. destruct (IH _ _ Hr) as ((q & Hq & Hoq & Htq) & Hmin). split.
    + exists q. by rewrite elem_of_cons; auto.
    + intros q' e' [->|Hin]%elem_of_cons Hrej; [congruence|eauto].
  - destruct (firstRejected rest) as [[t' e']|] eqn:Hrest.
    + destruct (IH _ _ eq_refl) as ((q & Hq & Hoq & Htq) & Hmin).
      destruct (settleTime p <=? t')%nat eqn:Hle; intros [= <- <-].
      * apply Nat.leb_le in Hle. split.
        -- exists p. by rewrite elem_of_cons; auto.
        -- intros q' e'' [->|Hin]%elem_of_cons Hrej; [done|].
           specialize (Hmin _ _ Hin Hrej). lia.
      * apply Nat.leb_gt in Hle. split.
        -- exists q. by rewrite elem_of_cons; auto.
        -- intros q' e'' [->|Hin]%elem_of_cons Hrej; [lia|eauto].
    + intros [= <- <-]. apply firstRejected_none in Hrest. split.
      * exists p. by rewrite elem_of_cons; auto.
      * intros q' e'' [->|Hin]%elem_of_cons Hrej; [done|].
        rewrite Forall_forall in Hrest. destruct (Hrest _ Hin) as [a Ha]. congruence.
Qed.

(** [Promise.all] rejects exactly when an element rejects, with the
    reason of an earliest one; otherwise it fulfils. *)
Lemma promiseAll_rejects {E A} (ps : list (promise E A)) :
  (∃ p e, p ∈ ps ∧ outcome p = Rejected e) →
  ∃ p e, p ∈ ps ∧ outcome p = Rejected e ∧ promiseAll ps = Rejected e
         ∧ ∀ q e', q ∈ ps → outcome q = Rejected e' → (settleTime p ≤ settleTime q)%nat.
Proof.
  intros (p0 & e0 & Hin & Ho). unfold promiseAll.
  destruct (firstRejected ps) as [[t e]|] eqn:Hr.
  - destruct (firstRejected_some _ _ _ Hr) as ((p & Hp & Hop & <-) & Hmin). eauto 10.
  - apply firstRejected_none in Hr. rewrite Forall_forall in Hr.
    destruct (Hr _ Hin) as [a Ha]. congruence.
Qed.

Lemma promiseAll_fulfils {E A} (ps : list (promise E A)) :
  Forall (λ p, ∃ a, outcome p = Fulfilled a) ps →
  promiseAll ps = Fulfilled (fulfilledValues ps).
Proof. intros Hall. unfold promiseAll. by rewrite (proj2 (firstRejected_none ps) Hall). Qed.

Lemma bind_Normal {A B} (m : M A) (k : A → M B) (b : B) (w w' : World) :
  bind m k w = (Normal b, w') →
  ∃ a w1, m w = (Normal a, w1) ∧ k a w1 = (Normal b, w').
Proof.
  unfold bind. destruct (m w) as [[a|] w1]; [eauto|done].
Qed.

(** When the call does not throw, it has issued one commit per batch it
    holds, and it returns [Promise.all] over the promises of exactly
    those commits. *)
Lemma writeBatch_returns_promiseAll (fs : FirebaseFirestore)
    (writes : list WriteOf) (r : settled FirestoreError (list unit)) (w w' : World) :
  writeBatch commitOutcome fs writes w = (Normal r, w') →
  ∃ (bs : list nat) (w2 : World),
    let issued := (λ h, (h, default [] (wb_ops <$> heap w2 !! h))) <$> bs in
    commitLog w' = (commitLog w2 ++ issued)%list
    ∧ heap w' = heap w2
    ∧ r = promiseAll ((λ c, commitOutcome c.1 c.2) <$> issued).
Proof.
  unfold writeBatch. intros Hrun.
  apply bind_Normal in Hrun as (bs & w1 & _ & Hrun).
  apply bind_Normal in Hrun as ([] & w2 & _ & Hrun).
  apply bind_Normal in Hrun as (ps & w3 & Hcommit & Hret).
  rewrite mapM_commit in Hcommit. injection Hcommit as <- <-.
  unfold ret in Hret. injection Hret as <- <-.
  exists bs, w2. cbn [commitLog heap]. repeat split.
  by rewrite <- list_fmap_compose.
Qed.

End WriterProperties.

(** ** Concrete runs *)

(** C1, on lists of 0, 1, 500, 501 and 1000 [Set] writes with payload.
    The lists of 501 and 1000 are cut into chunks of sizes 500, 1 and
    500, 500; but the empty list leads to no commit at all, and every
    other list makes the call throw at its first write, before any
    commit: the commit log stays empty in all five runs. *)
Theorem writeBatch_commit_counts :
  length <$> chunk (setsWithData 501) 500 = [500; 1]
  ∧ length <$> chunk (setsWithData 1000) 500 = [500; 500]
  ∧ writeBatch commitFulfils "db" (setsWithData 0) (emptyWorld : World0)
    = (Normal (Fulfilled []), emptyWorld)
  ∧ writeBatch commitFulfils "db" (setsWithData 1) (emptyWorld : World0)
    = (Throw, emptyWorld)
  ∧ writeBatch commitFulfils "db" (setsWithData 500) (emptyWorld : World0)
    = (Throw, emptyWorld)
  ∧ commitLog (snd (writeBatch commitFulfils "db" (setsWithData 501) (emptyWorld : World0)))
    = []
  ∧ fst (writeBatch commitFulfils "db" (setsWithData 501) (emptyWorld : World0)) = Throw
  ∧ commitLog (snd (writeBatch commitFulfils "db" (setsWithData 1000) (emptyWorld : World0)))
    = []
  ∧ fst (writeBatch commitFulfils "db" (setsWithData 1000) (emptyWorld : World0)) = Throw.
Proof. repeat split; by vm_compute. Qed.

(** C2, on a document [{a: 1}] asked for its field ["a"]. [get] is taken
    out of the snapshot at line 61 and called bare at line 65: on a
    client whose [get] needs its receiver the call rejects with a
    [TypeError] and returns no data. On a client whose [get] works bare,
    line 72 shapes the accumulator, and the data returned nests the
    empty object under [a]. Neither is the shaping of the retrieved
    value, which holds [1] under [a]. *)
Theorem getDoc_never_shapes_retrieved :
  getDoc getDocumentA1 "users/1" true None
         [{| fieldPath := FPString "a"; options := None |}]
  = Rejected TypeError
  ∧ getDoc getDocumentA1Lenient "users/1" true None
           [{| fieldPath := FPString "a"; options := None |}]
    = Fulfilled (DataOnly (VObj {[ "a" := VObj ∅ ]}))
  ∧ shapeLoop_spec [{| fv_data := VNum 1; fv_fieldPath := FPString "a" |}] (VObj ∅)
    = Normal (VObj {[ "a" := VNum 1 ]})
  ∧ getProp "a" (VObj {[ "a" := VObj ∅ ]}) ≠ getProp "a" (VObj {[ "a" := VNum 1 ]}).
Proof. split; [|split; [|split]]; [by vm_compute..|]. vm_compute. discriminate. Qed.

(** C4, on 500 payload-less [Set]s followed by one [Delete]: the second
    chunk is the [Delete] alone, yet its operation lands in the batch
    opened for the first chunk, and the second chunk's own batch is
    committed empty. *)
Theorem writeBatch_conflates_chunks :
  let writes := (replicate 500 (setWithoutData "users/1") ++ [deleteOf "users/2"])%list in
  chunk writes 500 = [replicate 500 (setWithoutData "users/1"); [deleteOf "users/2"]]
  ∧ writeBatch commitFulfils "db" writes (emptyWorld : World0)
    = (Normal (Fulfilled [tt; tt]),
       {| heap := [ {| wb_owner := "db"; wb_ops := [OpDelete "users/2"] |};
                    {| wb_owner := "db"; wb_ops := [] |} ];
          commitLog := [(0, [OpDelete "users/2"]); (1, [])];
          listeners := [];
          deletions := [] |}).
Proof. split; by vm_compute. Qed.

(** C6: the claim fails on a reference with one callback. The
    subscription call yields registration 0, and neither wrapper returns
    it. *)
Lemma listen_returns_no_handle :
  ¬ (∃ h, fst (onSnapshot (TDoc "users/1") cbNext (emptyWorld : World0)) = Normal h
          ∧ fst (listenDoc "users/1" cbNext (emptyWorld : World0))
            = Normal (RetUnsubscribe h))
  ∧ ¬ (∃ h, fst (onSnapshot (TQuery "users") cbNext (emptyWorld : World0)) = Normal h
            ∧ fst (listenDocs "users" cbNext (emptyWorld : World0))
              = Normal (RetUnsubscribe h)).
Proof. split; intros (h & _ & Hret); vm_compute in Hret; discriminate. Qed.

Lemma applyWrite_absent_payload_witness :
  ((w_type (setWithoutData "users/1") = SET ∨ w_type (setWithoutData "users/1") = UPDATE)
   ∧ w_data (setWithoutData "users/1") = VUndefined)
  ∧ (applyWrite [0] (setWithoutData "users/1") (emptyWorld : World0)
     = (Normal tt, emptyWorld)
     ∧ forOf ([deleteOf "users/0"] ++ setWithoutData "users/1" :: [deleteOf "users/2"])
             (applyWrite [0]) (emptyWorld : World0)
       = forOf ([deleteOf "users/0"] ++ [deleteOf "users/2"]) (applyWrite [0]) emptyWorld
     ∧ applyWrite [0] {| w_type := DELETE; w_data := VNull; w_ref := "users/3" |}
                  (emptyWorld : World0)
       = batchAppend ([0] !! 0) (OpDelete "users/3") emptyWorld).
Proof.
  assert (H1 : w_type (setWithoutData "users/1") = SET
               ∨ w_type (setWithoutData "users/1") = UPDATE) by (left; reflexivity).
  assert (H2 : w_data (setWithoutData "users/1") = VUndefined) by reflexivity.
  split; [done|].
  exact (applyWrite_absent_payload (FirebaseFirestore:=string) (Query:=string)
           (Callback:=nat) [0] (setWithoutData "users/1")
           [deleteOf "users/0"] [deleteOf "users/2"] "users/3" VNull emptyWorld H1 H2).
Defined.

Lemma shapeLoop_later_overwrites_witness :
  (fv_fieldPath fieldAB = FPString "a.b" ∧ fv_fieldPath fieldAC = FPString "a.c"
   ∧ index0 (str_split "a.b") = index0 (str_split "a.c")
   ∧ shapeLoop [] (VObj ∅) = Normal (VObj ∅)
   ∧ shapeLoop [] (spreadValues (VObj ∅) (parseFieldPath "a.b" (VObj ∅)))
     = Normal (spreadValues (VObj ∅) (parseFieldPath "a.b" (VObj ∅))))
  ∧ (let k := index0 (str_split "a.c") in
     let data1 := spreadValues (VObj ∅) (parseFieldPath "a.b" (VObj ∅)) in
     let data2 := spreadValues data1 (parseFieldPath "a.c" data1) in
     shapeLoop ([] ++ [fieldAB]) (VObj ∅) = Normal data1
     ∧ shapeLoop ([] ++ fieldAB :: [] ++ [fieldAC]) (VObj ∅) = Normal data2
     ∧ getProp k data1 = Some (nest (drop 1 (str_split "a.b")) (VObj ∅))
     ∧ getProp k data2 = getProp k (parseFieldPath "a.c" data1)
     ∧ getProp k data2 = Some (nest (drop 1 (str_split "a.c")) data1)
     ∧ (∀ k', k' ≠ k → getProp k' data2 = getProp k' data1)).
Proof.
  assert (H1 : fv_fieldPath fieldAB = FPString "a.b") by reflexivity.
  assert (H2 : fv_fieldPath fieldAC = FPString "a.c") by reflexivity.
  assert (H3 : index0 (str_split "a.b") = index0 (str_split "a.c")) by reflexivity.
  assert (H4 : shapeLoop [] (VObj ∅) = Normal (VObj ∅)) by reflexivity.
  assert (H5 : shapeLoop [] (spreadValues (VObj ∅) (parseFieldPath "a.b" (VObj ∅)))
               = Normal (spreadValues (VObj ∅) (parseFieldPath "a.b" (VObj ∅))))
    by reflexivity.
  split; [done|].
  exact (shapeLoop_later_overwrites [] [] fieldAB fieldAC "a.b" "a.c"
           (VObj ∅) (VObj ∅) _ H1 H2 H3 H4 H5).
Defined.

(** The two paths of the specification's example: after the loop the key
    [a] holds only the shaping of ["a.c"]; there is no [a.b]. *)
Example shapeLoop_ab_ac :
  shapeLoop [fieldAB; fieldAC] (VObj ∅)
  = Normal (VObj {[ "a" := VObj {[ "c" := VObj {[ "a" := VObj {[ "b" := VObj ∅ ]} ]} ]} ]})
  ∧ getPath ["a"; "b"]
      (VObj {[ "a" := VObj {[ "c" := VObj {[ "a" := VObj {[ "b" := VObj ∅ ]} ]} ]} ]})
    = None.
Proof. split; by vm_compute. Qed.

(** * Further properties *)

(** ** The shaper on arbitrary paths *)

Lemma str_split_concat p q :
  str_split (p ++ "." ++ q) = (str_split p ++ str_split q)%list.
Proof.
  induction p as [|c r IH]; [done|]. simpl.
  rewrite IH. destruct (is_dot c); [done|].
  destruct (str_split r) as [|h t] eqn:Hr; [by apply str_split_nonempty in Hr|done].
Qed.

Lemma str_split_length s : length (str_split s) = S (count_dots s).
Proof.
  induction s as [|c r IH]; [done|]. cbn [str_split count_dots].
  destruct (is_dot c).
  - cbn. by rewrite IH.
  - destruct (str_split r) as [|h t]; cbn in *; lia.
Qed.

Lemma str_split_injective s s' : str_split s = str_split s' → s = s'.
Proof. intros H. by rewrite <- (str_join_split s), <- (str_join_split s'), H. Qed.

Lemma first_segment_prefix fp :
  dot_free (firstSegment fp) = true
  ∧ (fp = firstSegment fp ∨ ∃ rest, fp = firstSegment fp ++ "." ++ rest).
Proof.
  unfold firstSegment. pose proof (str_split_dot_free fp) as Hfree.
  pose proof (str_join_split fp) as Hjoin.
  destruct (str_split fp) as [|h [|r rs]] eqn:Hs; [by apply str_split_nonempty in Hs| |].
  - inversion Hfree as [|? ? Hh _]. split; [done|]. left. by rewrite <- Hjoin.
  - inversion Hfree as [|? ? Hh _]. split; [done|]. right.
    exists (str_join (r :: rs)). by rewrite <- Hjoin.
Qed.

Lemma nest_injective_on_leaves segs segs' v v' :
  isLeaf v = true → isLeaf v' = true →
  nest segs v = nest segs' v' → segs = segs' ∧ v = v'.
Proof.
  intros Hv Hv'. revert segs'.
  induction segs as [|s rest IH]; intros [|s' rest'] Heq; cbn [nest] in Heq.
  - done.
  - subst v. discriminate.
  - subst v'. discriminate.
  - assert (Hm : ({[ s := nest rest v ]} : gmap string value)
                 = {[ s' := nest rest' v' ]}) by congruence.
    assert (Hl : ({[ s' := nest rest' v' ]} : gmap string value) !! s
                 = Some (nest rest v)) by (by rewrite <- Hm, lookup_singleton_eq).
    apply lookup_singleton_Some in Hl as [-> Hn].
    destruct (IH rest' (eq_sym Hn)) as [-> ->]. done.
Qed.

(** X1. Shaping a path [p.q] is shaping [q] and then shaping [p] around
    the result, for any strings [p] and [q], empty segments included. *)
Theorem parseFieldPath_compose (p q : string) (v : value) :
  parseFieldPath (p ++ "." ++ q) v = parseFieldPath p (parseFieldPath q v).
Proof. by rewrite !parseFieldPath_nest, str_split_concat, nest_app. Qed.

(** X2. The shaped object has exactly one own property. Its name is the
    text of the path before the first dot (the whole path when there is
    no dot). *)
Theorem parseFieldPath_sole_key (fp : string) (v : value) :
  size (ownProps (parseFieldPath fp v)) = 1
  ∧ (∀ k, is_Some (getProp k (parseFieldPath fp v)) ↔ k = firstSegment fp)
  ∧ dot_free (firstSegment fp) = true
  ∧ (fp = firstSegment fp ∨ ∃ rest, fp = firstSegment fp ++ "." ++ rest).
Proof.
  destruct (first_segment_prefix fp) as [Hfree Hpre].
  assert (Hshape : parseFieldPath fp v
                   = VObj {[ firstSegment fp := nest (drop 1 (str_split fp)) v ]}).
  { rewrite parseFieldPath_nest. unfold firstSegment.
    destruct (str_split fp) as [|h t] eqn:Hs; [by apply str_split_nonempty in Hs|done]. }
  rewrite Hshape. cbn [ownProps getProp]. repeat split; [apply map_size_singleton| | |done..].
  - intros [x Hx]. by apply lookup_singleton_Some in Hx as [-> _].
  - intros ->. rewrite lookup_singleton_eq. eauto.
Qed.

(** X3. The number of object layers the shaper adds is the number of
    dots in the path plus one. *)
Theorem parseFieldPath_depth_dots (fp : string) (v : value) :
  depth (parseFieldPath fp v) = S (count_dots fp) + depth v.
Proof. by rewrite parseFieldPath_nest, depth_nest, str_split_length. Qed.

(** X4. On values that are not objects the shaper is injective: equal
    shaped objects come from the same path and the same value. *)
Theorem parseFieldPath_injective_on_leaves (fp fp' : string) (v v' : value) :
  isLeaf v = true → isLeaf v' = true →
  parseFieldPath fp v = parseFieldPath fp' v' → fp = fp' ∧ v = v'.
Proof.
  intros Hv Hv'. rewrite !parseFieldPath_nest. intros Heq.
  destruct (nest_injective_on_leaves _ _ _ _ Hv Hv' Heq) as [Hs ->].
  split; [by apply str_split_injective|done].
Qed.

Lemma parseFieldPath_injective_on_leaves_witness :
  (isLeaf (VNum 1) = true ∧ isLeaf (VNum 1) = true
   ∧ parseFieldPath "a.b" (VNum 1) = parseFieldPath "a.b" (VNum 1))
  ∧ ("a.b" = "a.b" ∧ VNum 1 = VNum 1).
Proof.
  assert (H1 : isLeaf (VNum 1) = true) by reflexivity.
  assert (H3 : parseFieldPath "a.b" (VNum 1) = parseFieldPath "a.b" (VNum 1))
    by reflexivity.
  split; [done|].
  exact (parseFieldPath_injective_on_leaves "a.b" "a.b" (VNum 1) (VNum 1) H1 H1 H3).
Defined.

(** Without the restriction to leaves two different paths can shape to
    the same object. *)
Example parseFieldPath_collision :
  parseFieldPath "a.b" (VNum 1) = parseFieldPath "a" (VObj {[ "b" := VNum 1 ]}).
Proof. by vm_compute. Qed.

(** ** Reading documents *)

Lemma mapR_Returns {E A B} (f : A → returned E B) (l : list A) (ys : list B) :
  mapR f l = Returns ys ↔ Forall2 (λ x y, f x = Returns y) l ys.
Proof.
  revert ys. induction l as [|x rest IH]; intros ys; cbn [mapR].
  - split; [intros [= <-]; constructor|by inversion 1].
  - destruct (f x) as [y|e] eqn:Hx.
    + destruct (mapR f rest) as [ys'|e] eqn:Hrest.
      * split.
        -- intros [= <-]. constructor; [done|]. by apply IH.
        -- inversion 1 as [|? y' ? ys'' Hy Hall]; subst.
           apply IH in Hall. congruence.
      * split; [done|]. inversion 1 as [|? y' ? ys'' Hy Hall]; subst.
        by apply IH in Hall.
    + split; [done|]. inversion 1; congruence.
Qed.

Lemma mapR_Throws {E A B} (f : A → returned E B) (l : list A) (e : E) :
  mapR f l = Throws e
  ↔ ∃ pre x post, l = (pre ++ x :: post)%list
                  ∧ Forall (λ x', ∃ y, f x' = Returns y) pre ∧ f x = Throws e.
Proof.
  induction l as [|x rest IH]; cbn [mapR].
  - split; [done|]. intros (pre & x & post & Hl & _). by destruct pre.
  - destruct (f x) as [y|e'] eqn:Hx.
    + destruct (mapR f rest) as [ys'|e'] eqn:Hrest.
      * split; [done|]. intros (pre & x' & post & Hl & Hpre & Hthrow).
        destruct pre as [|p pre]; injection Hl as -> ->; [congruence|].
        inversion Hpre; subst.
        assert (Heq : Returns ys' = @Throws E (list B) e) by (apply IH; eauto 10).
        discriminate.
      * split.
        -- intros [= ->].
           destruct (proj1 IH eq_refl) as (pre & x' & post & -> & Hpre & Hthrow).
           exists (x :: pre), x', post. repeat split; [|done]. constructor; eauto.
        -- intros (pre & x' & post & Hl & Hpre & Hthrow).
           destruct pre as [|p pre]; injection Hl as -> ->; [congruence|].
           inversion Hpre; subst.
           assert (Heq : @Throws E (list B) e' = Throws e) by (apply IH; eauto 10).
           by injection Heq as ->.
    + split.
      * intros [= ->]. exists [], x, rest. by repeat split.
      * intros (pre & x' & post & Hl & Hpre & Hthrow).
        destruct pre as [|p pre]; injection Hl as -> ->; [congruence|].
        inversion Hpre as [|? ? [y Hy]]; subst. congruence.
Qed.

Lemma mapR_fmap {E A B C} (f : B → returned E C) (g : A → B) (l : list A) :
  mapR f (g <$> l) = mapR (λ x, f (g x)) l.
Proof. induction l as [|x rest IH]; [done|]. cbn [fmap list_fmap mapR]. by rewrite IH. Qed.


Section ReadProperties.
Context {DocumentReference Query : Type}.
Context {SnapshotOptions SnapshotMetadata FirestoreError SnapshotExists : Type}.

Local Abbreviation Snapshot :=
  (@DocumentSnapshot SnapshotOptions SnapshotMetadata FirestoreError SnapshotExists).
Local Abbreviation Request := (@FieldRequest SnapshotOptions).
Local Abbreviation Result := (@DocResult SnapshotMetadata SnapshotExists).

(** A bare call of [get] for a request returns. *)
Local Abbreviation bareReturns snap :=
  (λ gf : Request, ∃ v, snap_get_detached snap (fieldPath gf) (options gf) = Returns v).

Lemma shapeLoop_throw_iff (d : list FieldValue) (data : value) :
  shapeLoop d data = Throw
  ↔ Exists (λ v, ∃ segs, fv_fieldPath v = FPObject segs) d.
Proof.
  revert data. induction d as [|v rest IH]; intros data.
  - split; [done|by inversion 1].
  - cbn [shapeLoop]. unfold shapeStep.
    destruct (fv_fieldPath v) as [p|segs] eqn:Hp; cbn [parseFieldPathCast].
    + rewrite IH. split; [by right|].
      inversion 1 as [? ? [segs Hs]|]; [congruence|done].
    + split; [left; eauto|done].
Qed.

(** The top-level keys after the loop: those before it and the first
    segment of every path. *)
Lemma shapeLoop_keys (d : list FieldValue) (paths : list string)
    (props0 : gmap string value) :
  Forall2 (λ v p, fv_fieldPath v = FPString p) d paths →
  ∃ props,
    shapeLoop d (VObj props0) = Normal (VObj props)
    ∧ dom props = dom props0 ∪ list_to_set (firstSegment <$> paths).
Proof.
  intros Hall. revert props0.
  induction Hall as [|v p rest paths Hp _ IH]; intros props0.
  - exists props0. split; [done|]. cbn. by rewrite (right_id_L ∅ (∪)).
  - cbn [shapeLoop]. rewrite (shapeStep_string v p) by done.
    destruct (parseFieldPath_top p (VObj props0)) as [inner ->].
    unfold spreadValues, spread. cbn [ownProps].
    destruct (IH ({[ index0 (str_split p) := inner ]} ∪ props0)) as (props & -> & Hdom).
    exists props. split; [done|].
    rewrite Hdom, dom_union_L, dom_singleton_L. cbn [fmap list_fmap list_to_set].
    unfold firstSegment at 2.
    by rewrite (comm_L (∪) {[ index0 (str_split p) ]}), (assoc_L (∪)).
Qed.

Lemma retrieveDetached_Returns (snap : Snapshot) (gf : Request) (fv : FieldValue) :
  retrieveDetached snap gf = Returns fv
  ↔ ∃ v, snap_get_detached snap (fieldPath gf) (options gf) = Returns v
         ∧ fv = {| fv_data := v; fv_fieldPath := fieldPath gf |}.
Proof.
  unfold retrieveDetached.
  destruct (snap_get_detached snap (fieldPath gf) (options gf)) as [v|e].
  - split; [intros [= <-]; eauto|by intros (v' & [= <-] & ->)].
  - split; [done|by intros (v' & ? & _)].
Qed.

Lemma retrieveDetached_Throws (snap : Snapshot) (gf : Request) (e : error FirestoreError) :
  retrieveDetached snap gf = Throws e
  ↔ snap_get_detached snap (fieldPath gf) (options gf) = Throws e.
Proof.
  unfold retrieveDetached.
  destruct (snap_get_detached snap (fieldPath gf) (options gf)); split; congruence.
Qed.

(** The requests whose bare [get] returned keep their paths. *)
Lemma retrieved_paths (snap : Snapshot) (fields : list Request) (d : list FieldValue) :
  mapR (retrieveDetached snap) fields = Returns d →
  Forall (bareReturns snap) fields
  ∧ (Exists (λ v, ∃ segs, fv_fieldPath v = FPObject segs) d
     ↔ Exists (λ gf, ∃ segs, fieldPath gf = FPObject segs) fields).
Proof.
  intros Hd%mapR_Returns. induction Hd as [|gf fv rest d' Hfv _ [IH1 IH2]].
  - split; [constructor|]. split; by inversion 1.
  - apply retrieveDetached_Returns in Hfv as (v & Hv & ->). split.
    + constructor; eauto.
    + rewrite !Exists_cons, IH2. done.
Qed.

(** X5. [getDoc] fails in three cases only. The document read fails,
    and the client's error is passed on. Or the read succeeds and a bare
    call of [get] throws, at the first request for which it does, and
    what it threw is passed on. Or every bare call returns and some
    request carries a [FieldPath] object instead of a string, which ends
    in a [TypeError] at the shaper. *)
Theorem getDoc_failure
    (getDocument : DocumentReference → settled FirestoreError Snapshot)
    (ref : DocumentReference) (dataOnly : bool) (opts : option SnapshotOptions)
    (fields : list Request) (err : error FirestoreError) :
  getDoc getDocument ref dataOnly opts fields = Rejected err
  ↔ (∃ e, getDocument ref = Rejected e ∧ err = ClientError e)
    ∨ (∃ snap, getDocument ref = Fulfilled snap
         ∧ ((∃ pre gf post,
               fields = (pre ++ gf :: post)%list
               ∧ Forall (bareReturns snap) pre
               ∧ snap_get_detached snap (fieldPath gf) (options gf) = Throws err)
            ∨ (Forall (bareReturns snap) fields ∧ err = TypeError
               ∧ Exists (λ gf, ∃ segs, fieldPath gf = FPObject segs) fields))).
Proof.
  unfold getDoc. destruct (getDocument ref) as [snap|e].
  2:{ split.
      - intros [= <-]. left. eauto.
      - intros [(e' & [= <-] & ->)|(snap & Hs & _)]; done. }
  assert (Hbare : ∀ e, mapR (retrieveDetached snap) fields = Throws e
                       ↔ ∃ pre gf post,
                           fields = (pre ++ gf :: post)%list
                           ∧ Forall (bareReturns snap) pre
                           ∧ snap_get_detached snap (fieldPath gf) (options gf)
                             = Throws e).
  { intros e. rewrite mapR_Throws. split.
    - intros (pre & gf & post & -> & Hpre & Hthrow%retrieveDetached_Throws).
      exists pre, gf, post. repeat split; [|done].
      eapply Forall_impl; [exact Hpre|].
      intros gf' [fv (v & Hv & _)%retrieveDetached_Returns]. eauto.
    - intros (pre & gf & post & -> & Hpre & Hthrow).
      exists pre, gf, post. repeat split; [|by apply retrieveDetached_Throws].
      eapply Forall_impl; [exact Hpre|].
      intros gf' [v Hv]. eexists. apply retrieveDetached_Returns. eauto. }
  destruct fields as [|gf0 rest0] eqn:Hfields.
  { cbn. split; [by destruct dataOnly|].
    intros [(e & ? & _)|(snap' & _ & [(pre & gf & post & Hl & _)|(_ & _ & Hex)])];
      [done|by destruct pre|by inversion Hex]. }
  rewrite <- Hfields in *. replace (0 <? length fields)%nat with true by (by subst).
  destruct (mapR (retrieveDetached snap) fields) as [d|e] eqn:Hd.
  - destruct (retrieved_paths snap fields d Hd) as [Hall Hobj].
    pose proof (shapeLoop_throw_iff d (VObj ∅)) as Hthrow. rewrite Hobj in Hthrow.
    destruct (shapeLoop d (VObj ∅)) as [data|].
    + split; [by destruct dataOnly|].
      intros [(e & ? & _)|(snap' & [= <-] & [Hcase|(_ & _ & Hex)])]; [done| |].
      * apply Hbare in Hcase. congruence.
      * by apply Hthrow in Hex.
    + split.
      * intros [= <-]. right. exists snap. split; [done|]. right.
        split; [done|]. split; [done|]. by apply Hthrow.
      * intros [(e & ? & _)|(snap' & [= <-] & [Hcase|(_ & -> & _)])]; [done| |done].
        apply Hbare in Hcase. congruence.
  - split.
    + intros [= <-]. right. exists snap. split; [done|]. left. by apply Hbare.
    + intros [(e' & ? & _)|(snap' & [= <-] & [Hcase|(Hall & _ & _)])]; [done| |].
      * apply Hbare in Hcase. congruence.
      * destruct (proj1 (Hbare e) eq_refl) as (pre & gf & post & Hl & _ & Hthrow).
        rewrite Hl in Hall.
        apply Forall_app in Hall as [_ Hall]. inversion Hall as [|? ? [v Hv]]; subst.
        congruence.
Qed.

(** X6. On a client whose [get] throws whenever it is called bare, as
    the Firestore client does, [getDoc] with at least one field request
    rejects with what [get] threw, whatever the document, the flag and
    the options: no data is returned. *)
Theorem getDoc_bare_get_rejects
    (getDocument : DocumentReference → settled FirestoreError Snapshot)
    (ref : DocumentReference) (snap : Snapshot) (dataOnly : bool)
    (opts : option SnapshotOptions) (fields : list Request) (e : error FirestoreError) :
  getDocument ref = Fulfilled snap → fields ≠ [] →
  (∀ fp o, snap_get_detached snap fp o = Throws e) →
  getDoc getDocument ref dataOnly opts fields = Rejected e.
Proof.
  intros Hread Hne Hbare. unfold getDoc. rewrite Hread.
  destruct fields as [|gf rest]; [done|].
  change (0 <? length (gf :: rest))%nat with true. cbv iota.
  cbn [mapR]. unfold retrieveDetached at 1. by rewrite Hbare.
Qed.

(** X7. The flag [dataOnly] only strips the envelope: both settings
    fail alike, and the data returned alone is the data returned under
    [data], next to [exists], [id] and [metadata] of the snapshot. *)
Theorem getDoc_dataOnly_envelope
    (getDocument : DocumentReference → settled FirestoreError Snapshot)
    (ref : DocumentReference) (opts : option SnapshotOptions) (fields : list Request) :
  (∀ err, getDoc getDocument ref true opts fields = Rejected err
          ↔ getDoc getDocument ref false opts fields = Rejected err)
  ∧ (∀ data, getDoc getDocument ref true opts fields = Fulfilled (DataOnly data)
             ↔ ∃ snap, getDocument ref = Fulfilled snap
                       ∧ getDoc getDocument ref false opts fields
                         = Fulfilled (WithMeta data (snap_exists snap) (snap_id snap)
                                               (snap_metadata snap))).
Proof.
  unfold getDoc. destruct (getDocument ref) as [snap|e].
  - destruct (0 <? length fields)%nat;
      [destruct (mapR (retrieveDetached snap) fields) as [d|e];
       [destruct (shapeLoop d (VObj ∅)) as [data'|]|]|].
    all: split; [done|]; intros data; split.
    all: try (intros [= <-]; by eauto).
    all: try by intros (s & _ & ?).
    all: intros (s & [= <-] & [= <-]); done.
  - split; [done|]. intros data. split; [done|]. by intros (s & ? & _).
Qed.

(** The values read by the bare calls keep the paths of the requests. *)
Lemma retrieved_as_paths (snap : Snapshot) (fields : list Request)
    (d : list FieldValue) (paths : list string) :
  mapR (retrieveDetached snap) fields = Returns d →
  Forall2 (λ gf p, fieldPath gf = FPString p) fields paths →
  (λ v, {| fv_data := VUndefined; fv_fieldPath := fv_fieldPath v |}) <$> d
  = (λ p, {| fv_data := VUndefined; fv_fieldPath := FPString p |}) <$> paths.
Proof.
  intros Hd%mapR_Returns Hpaths. revert paths Hpaths.
  induction Hd as [|gf fv rest d' Hfv _ IH]; intros paths Hpaths.
  - by inversion Hpaths.
  - inversion Hpaths as [|? p ? paths' Hp Hrest]; subst.
    apply retrieveDetached_Returns in Hfv as (v & _ & ->).
    cbn [fmap list_fmap fv_fieldPath]. rewrite Hp. f_equal. by apply IH.
Qed.

(** X8. Whenever [getDoc] returns data for string requests, at least
    one, the data is the object the loop builds from the requested paths
    alone: its top-level keys are the first segments of the paths, and
    the document, the reference, the options and the values read play no
    part in it. (This is the case of a client whose [get] works bare;
    where it throws, the call rejects and the loop is not reached.) *)
Theorem getDoc_field_keys
    (getDocument : DocumentReference → settled FirestoreError Snapshot)
    (ref : DocumentReference) (dataOnly : bool) (opts : option SnapshotOptions)
    (fields : list Request) (paths : list string) (r : Result) :
  fields ≠ [] →
  Forall2 (λ gf p, fieldPath gf = FPString p) fields paths →
  getDoc getDocument ref dataOnly opts fields = Fulfilled r →
  ∃ props,
    resultData r = VObj props
    ∧ dom props = list_to_set (firstSegment <$> paths)
    ∧ shapeLoop ((λ p, {| fv_data := VUndefined; fv_fieldPath := FPString p |})
                   <$> paths) (VObj ∅)
      = Normal (VObj props).
Proof.
  intros Hne Hpaths. unfold getDoc.
  destruct (getDocument ref) as [snap|e]; [|done].
  destruct fields as [|gf rest]; [done|].
  change (0 <? length (gf :: rest))%nat with true. cbv iota.
  destruct (mapR (retrieveDetached snap) (gf :: rest)) as [d|e] eqn:Hd; [|done].
  rewrite shapeLoop_ignores_retrieved, (retrieved_as_paths snap _ d paths Hd Hpaths).
  set (d0 := (λ p, {| fv_data := VUndefined; fv_fieldPath := FPString p |}) <$> paths).
  destruct (shapeLoop_keys d0 paths ∅) as (props & Hrun & Hdom).
  { subst d0. apply Forall2_fmap_l, Forall_Forall2_diag, Forall_forall. by intros. }
  rewrite Hrun. intros Hr. exists props.
  split; [by destruct dataOnly; injection Hr as <-|].
  split; [by rewrite Hdom, dom_empty_L, (left_id_L ∅ (∪))|done].
Qed.

End ReadProperties.

(** ** Reading query results *)

Section QueryProperties.
Context {DocumentReference Query : Type}.
Context {SnapshotOptions SnapshotMetadata FirestoreError SnapshotExists : Type}.

Local Abbreviation Snapshot :=
  (@DocumentSnapshot SnapshotOptions SnapshotMetadata FirestoreError SnapshotExists).
Local Abbreviation QuerySnap :=
  (@QueryDocumentSnapshot DocumentReference SnapshotOptions SnapshotMetadata
                          FirestoreError SnapshotExists).
Local Abbreviation Result := (@DocResult SnapshotMetadata SnapshotExists).

Variable getDocuments : Query → settled FirestoreError (list QuerySnap).




(** Without [dataOnly], the callback is [getDoc] on the one document,
    without snapshot options. *)
Lemma resultOfSnapshot_getDoc (fields : list (@StringFieldRequest SnapshotOptions))
    (snap : QuerySnap) :
  getDoc (λ _ : DocumentReference, Fulfilled (qds_doc snap)) (qds_ref snap) false None
         (toFieldRequest <$> fields)
  = match resultOfSnapshot fields snap with
    | Returns r => Fulfilled r
    | Throws e => Rejected e
    end.
Proof.
  unfold getDoc, resultOfSnapshot. rewrite length_fmap, mapR_fmap.
  destruct (0 <? length fields)%nat; [|done].
  change (mapR (λ x, retrieveDetached (qds_doc snap) (toFieldRequest x)) fields)
    with (mapR (retrieveBare snap) fields).
  destruct (mapR (retrieveBare snap) fields) as [d|e]; [|done].
  by destruct (shapeLoop d (VObj ∅)).
Qed.

(** X9. Without [dataOnly], [getDocs] is [getDoc] run over the
    documents of the query in order, each time without [dataOnly], with
    the same requests and with no snapshot options, whatever [options]
    was passed to [getDocs]: it fulfils with the results of [getDoc]
    when [getDoc] fulfils on every document, and it rejects with the
    error of the first document on which [getDoc] rejects. *)
Theorem getDocs_agrees_with_getDoc
    (query : Query) (opts : option SnapshotOptions)
    (fields : list (@StringFieldRequest SnapshotOptions)) (snaps : list QuerySnap) :
  getDocuments query = Fulfilled snaps →
  let one := λ snap : QuerySnap,
    getDoc (λ _ : DocumentReference, Fulfilled (qds_doc snap)) (qds_ref snap) false None
           (toFieldRequest <$> fields) in
  (∀ results, getDocs getDocuments query false opts fields = Fulfilled results
              ↔ Forall2 (λ snap r, one snap = Fulfilled r) snaps results)
  ∧ (∀ err, getDocs getDocuments query false opts fields = Rejected err
            ↔ ∃ pre snap post,
                snaps = (pre ++ snap :: post)%list
                ∧ Forall (λ s, ∃ r, one s = Fulfilled r) pre
                ∧ one snap = Rejected err).
Proof.
  intros Hread one. unfold getDocs. rewrite Hread. cbv iota.
  assert (Hret : ∀ s r, resultOfSnapshot fields s = Returns r ↔ one s = Fulfilled r).
  { intros s r. subst one. cbv beta. rewrite resultOfSnapshot_getDoc.
    destruct (resultOfSnapshot fields s); split; congruence. }
  assert (Hthr : ∀ s e, resultOfSnapshot fields s = Throws e ↔ one s = Rejected e).
  { intros s e. subst one. cbv beta. rewrite resultOfSnapshot_getDoc.
    destruct (resultOfSnapshot fields s); split; congruence. }
  split.
  - intros results. destruct (mapR (resultOfSnapshot fields) snaps) as [rs|e] eqn:Hmap.
    + split.
      * intros [= <-]. apply mapR_Returns in Hmap.
        eapply Forall2_impl; [exact Hmap|]. intros s r. apply Hret.
      * intros Hall. f_equal. apply mapR_Returns in Hmap.
        assert (Hall' : Forall2 (λ s r, resultOfSnapshot fields s = Returns r)
                                snaps results).
        { eapply Forall2_impl; [exact Hall|]. intros s r. apply Hret. }
        apply mapR_Returns in Hall'. apply mapR_Returns in Hmap. congruence.
    + split; [done|]. intros Hall.
      assert (Hall' : Forall2 (λ s r, resultOfSnapshot fields s = Returns r)
                              snaps results).
      { eapply Forall2_impl; [exact Hall|]. intros s r. apply Hret. }
      apply mapR_Returns in Hall'. congruence.
  - intros err. destruct (mapR (resultOfSnapshot fields) snaps) as [rs|e] eqn:Hmap.
    + split; [done|]. intros (pre & s & post & Hl & Hpre & Hrej).
      assert (Hthrow : mapR (resultOfSnapshot fields) snaps = Throws err).
      { apply mapR_Throws. exists pre, s, post. repeat split; [done| |by apply Hthr].
        eapply Forall_impl; [exact Hpre|]. intros s' [r Hr]. exists r. by apply Hret. }
      congruence.
    + split.
      * intros [= <-]. apply mapR_Throws in Hmap as (pre & s & post & Hl & Hpre & Hthrow).
        exists pre, s, post. repeat split; [done| |by apply Hthr].
        eapply Forall_impl; [exact Hpre|]. intros s' [r Hr]. exists r. by apply Hret.
      * intros (pre & s & post & Hl & Hpre & Hrej). f_equal.
        assert (Hthrow : mapR (resultOfSnapshot fields) snaps = Throws err).
        { apply mapR_Throws. exists pre, s, post. repeat split; [done| |by apply Hthr].
          eapply Forall_impl; [exact Hpre|]. intros s' [r Hr]. exists r. by apply Hret. }
        congruence.
Qed.



End QueryProperties.

(** ** The batch writer, case by case *)

Section WriterRuns.
Context {FirebaseFirestore DocumentReference Query : Type}.
Context {FirestoreError Callback : Type}.
Context {checks : @BatchChecks FirebaseFirestore DocumentReference}.

Local Abbreviation World := (@world FirebaseFirestore DocumentReference Query Callback).
Local Abbreviation Promise := (promise FirestoreError unit).
Local Abbreviation WriteOf := (@Write DocumentReference).
Local Abbreviation Batch := (@WriteBatchObj FirebaseFirestore DocumentReference).
Local Abbreviation emptyBatch fs := ({| wb_owner := fs; wb_ops := [] |} : Batch).
Local Abbreviation opsOf writes := (concat (writeOps <$> writes)).

Variable commitOutcome : nat → list (@op DocumentReference) → Promise.

Lemma writeOps_nil_iff (wr : WriteOf) : writeOps wr = [] ↔ effective wr = false.
Proof.
  unfold writeOps, effective.
  destruct (w_type wr), (truthy (w_data wr)); cbn; split; done.
Qed.

Lemma writeOps_eq (wr : WriteOf) :
  writeOps wr
  = match w_type wr with
    | DELETE => [OpDelete (w_ref wr)]
    | SET => if truthy (w_data wr) then [OpSet (w_ref wr) (w_data wr)] else []
    | UPDATE => if truthy (w_data wr) then [OpUpdate (w_ref wr) (w_data wr)] else []
    end.
Proof. unfold writeOps. by destruct (w_type wr), (truthy (w_data wr)). Qed.

Lemma opsOf_ineffective (writes : list WriteOf) :
  existsb effective writes = false → opsOf writes = [].
Proof.
  induction writes as [|wr rest IH]; [done|]. cbn [existsb].
  intros [Hwr Hrest]%orb_false_elim. cbn [fmap list_fmap concat].
  by rewrite (proj2 (writeOps_nil_iff wr) Hwr), IH.
Qed.

Lemma withHeap_id (w : World) : withHeap w (heap w) = w.
Proof. by destruct w. Qed.

Lemma pushOps_nil (h : nat) (batches : list Batch) : pushOps h [] batches = batches.
Proof.
  unfold pushOps. apply list_alter_id. intros [fs ops]. cbn. by rewrite app_nil_r.
Qed.

Lemma pushOps_app (h : nat) (ops1 ops2 : list (@op DocumentReference))
    (batches : list Batch) :
  pushOps h ops2 (pushOps h ops1 batches) = pushOps h (ops1 ++ ops2) batches.
Proof.
  unfold pushOps. apply list_eq. intros i. destruct (decide (h = i)) as [->|Hne].
  - rewrite !list_lookup_alter_eq. destruct (batches !! i) as [[fs ops]|]; [|done].
    cbn. by rewrite app_assoc.
  - by rewrite !list_lookup_alter_ne.
Qed.

Lemma pushOps_length (h : nat) (ops : list (@op DocumentReference))
    (batches : list Batch) :
  length (pushOps h ops batches) = length batches.
Proof. apply length_alter. Qed.

Lemma pushOps_app_l (h : nat) (ops : list (@op DocumentReference))
    (batches more : list Batch) :
  (h < length batches)%nat →
  pushOps h ops (batches ++ more) = (pushOps h ops batches ++ more)%list.
Proof. intros Hlt. unfold pushOps. by apply alter_app_l. Qed.

Lemma pushOps_owner (h h' : nat) (ops : list (@op DocumentReference))
    (batches : list Batch) :
  wb_owner <$> pushOps h ops batches !! h' = wb_owner <$> batches !! h'.
Proof.
  unfold pushOps. destruct (decide (h = h')) as [->|Hne].
  - rewrite list_lookup_alter_eq. by destruct (batches !! h').
  - by rewrite list_lookup_alter_ne.
Qed.

(** On a batch that takes the operation, the call appends it. *)
Lemma batchAppend_accepted (h : nat) (fs : FirebaseFirestore)
    (o : @op DocumentReference) (w : World) :
  wb_owner <$> heap w !! h = Some fs → acceptsOp fs o = true →
  batchAppend (Some h) o w = (Normal tt, withHeap w (pushOps h [o] (heap w))).
Proof.
  intros Hown Hacc. unfold batchAppend, batchAccepts.
  destruct (heap w !! h) as [obj|]; [|done]. injection Hown as ->. by rewrite Hacc.
Qed.

(** With a batch in the array that takes them, a write appends its
    operations to that batch. *)
Lemma applyWrite_some (batches : list nat) (h : nat) (fs : FirebaseFirestore)
    (wr : WriteOf) (w : World) :
  batches !! 0 = Some h → wb_owner <$> heap w !! h = Some fs →
  Forall (λ o, acceptsOp fs o = true) (writeOps wr) →
  applyWrite batches wr w = (Normal tt, withHeap w (pushOps h (writeOps wr) (heap w))).
Proof.
  intros Hb Hown Hacc. rewrite applyWrite_eq, Hb. rewrite writeOps_eq in *.
  destruct (w_type wr), (truthy (w_data wr)); cbv iota in *.
  all: try (by rewrite (pushOps_nil h (heap w)), withHeap_id).
  all: inversion Hacc; subst; by apply (batchAppend_accepted h fs).
Qed.

(** With no batch in the array, an effective write throws and any other
    write is skipped. *)
Lemma applyWrite_none (wr : WriteOf) (w : World) :
  applyWrite [] wr w = (if effective wr then Throw else Normal tt, w).
Proof.
  unfold applyWrite, effective. cbn [lookup list_lookup].
  by destruct (w_type wr), (truthy (w_data wr)).
Qed.

Lemma forOf_some (batches : list nat) (h : nat) (fs : FirebaseFirestore)
    (writes : list WriteOf) (w : World) :
  batches !! 0 = Some h → wb_owner <$> heap w !! h = Some fs →
  Forall (λ o, acceptsOp fs o = true) (opsOf writes) →
  forOf writes (applyWrite batches) w
  = (Normal tt, withHeap w (pushOps h (opsOf writes) (heap w))).
Proof.
  intros Hb. revert w. induction writes as [|wr rest IH]; intros w Hown Hacc.
  - cbn. by rewrite pushOps_nil, withHeap_id.
  - cbn [fmap list_fmap concat] in Hacc. apply Forall_app in Hacc as [Hwr Hrest].
    cbn [forOf]. unfold bind. rewrite (applyWrite_some batches h fs) by done.
    rewrite IH; [|by cbn [heap withHeap]; rewrite pushOps_owner|done].
    cbn [fmap list_fmap concat heap withHeap].
    by rewrite pushOps_app.
Qed.

Lemma forOf_none (writes : list WriteOf) (w : World) :
  forOf writes (applyWrite []) w
  = (if existsb effective writes then Throw else Normal tt, w).
Proof.
  induction writes as [|wr rest IH]; [done|].
  cbn [forOf existsb]. unfold bind. rewrite applyWrite_none.
  destruct (effective wr); [done|]. exact IH.
Qed.

(** *** The chunks *)

Lemma chunk_length {A} (l : list A) (n : nat) :
  (1 ≤ n)%nat → length (chunk l n) = ((length l + n - 1) / n)%nat.
Proof.
  intros Hn. unfold chunk.
  replace (n <? 1)%nat with false by (symmetry; apply Nat.ltb_ge; lia).
  by rewrite length_fmap, length_seq.
Qed.

Lemma chunk_nil {A} (n : nat) : chunk (@nil A) n = [].
Proof.
  unfold chunk. destruct (n <? 1)%nat eqn:Hn; [done|].
  apply Nat.ltb_ge in Hn. cbn [length].
  replace ((0 + n - 1) / n)%nat with 0%nat; [done|].
  symmetry. apply Nat.div_small. lia.
Qed.

Lemma chunk_cons {A} (l : list A) (n : nat) :
  (1 ≤ n)%nat → l ≠ [] → chunk l n = take n l :: chunk (drop n l) n.
Proof.
  intros Hn Hl. unfold chunk.
  replace (n <? 1)%nat with false by (symmetry; apply Nat.ltb_ge; lia).
  assert (Hlen : (1 ≤ length l)%nat) by (destruct l; [done|cbn; lia]).
  assert (Hdiv : ((length l + n - 1) / n
                  = S ((length (drop n l) + n - 1) / n))%nat).
  { rewrite length_drop. destruct (decide (length l ≤ n)%nat) as [Hle|Hgt].
    - replace (length l - n)%nat with 0%nat by lia.
      replace ((0 + n - 1) / n)%nat with 0%nat by (symmetry; apply Nat.div_small; lia).
      symmetry. apply (Nat.div_unique _ _ 1 (length l - 1)); lia.
    - replace (length l + n - 1)%nat with ((length l - n + n - 1) + 1 * n)%nat by lia.
      rewrite Nat.div_add by lia. lia. }
  rewrite Hdiv. cbn [seq fmap list_fmap]. f_equal.
  rewrite <- fmap_S_seq, <- list_fmap_compose. apply list_fmap_ext.
  intros _ i _. unfold compose. by rewrite drop_drop.
Qed.

Lemma concat_chunk {A} (l : list A) (n : nat) :
  (1 ≤ n)%nat → concat (chunk l n) = l.
Proof.
  intros Hn. remember (length l) as k eqn:Hk. revert l Hk.
  induction (lt_wf k) as [k _ IH]. intros l ->.
  destruct l as [|x rest]; [by rewrite chunk_nil|].
  rewrite chunk_cons by done. cbn [concat].
  rewrite (IH (length (drop n (x :: rest)))); [apply take_drop| |done].
  rewrite length_drop. cbn [length]. lia.
Qed.

(** *** The loop over the chunks *)

(** A chunk processed when the array already holds a batch that takes
    the chunk's operations. *)
Lemma writeChunk_some (fs fs0 : FirebaseFirestore) (batches : list nat) (h : nat)
    (c : list WriteOf) (w : World) :
  batches !! 0 = Some h → wb_owner <$> heap w !! h = Some fs0 →
  Forall (λ o, acceptsOp fs0 o = true) (opsOf c) →
  writeChunk fs batches c w
  = (Normal (batches ++ [length (heap w)])%list,
     withHeap w (pushOps h (opsOf c) (heap w) ++ [emptyBatch fs])).
Proof.
  intros Hb Hown Hacc. unfold writeChunk, bind, writeDocs.
  assert (Hlt : (h < length (heap w))%nat).
  { apply lookup_lt_is_Some. by destruct (heap w !! h). }
  rewrite (forOf_some batches h fs0);
    [|done|by cbn [heap]; rewrite lookup_app_l|done].
  cbn [heap withHeap ret]. by rewrite pushOps_app_l.
Qed.

Lemma forOfWith_some (fs fs0 : FirebaseFirestore) (chunks : list (list WriteOf))
    (batches : list nat) (h : nat) (w : World) :
  batches !! 0 = Some h → wb_owner <$> heap w !! h = Some fs0 →
  Forall (λ o, acceptsOp fs0 o = true) (opsOf (concat chunks)) →
  forOfWith chunks (writeChunk fs) batches w
  = (Normal (batches ++ seq (length (heap w)) (length chunks))%list,
     withHeap w (pushOps h (opsOf (concat chunks)) (heap w)
                 ++ replicate (length chunks) (emptyBatch fs))).
Proof.
  revert batches w. induction chunks as [|c rest IH]; intros batches w Hb Hown Hacc.
  - cbn. by rewrite !app_nil_r, pushOps_nil, withHeap_id.
  - cbn [concat] in Hacc. rewrite fmap_app, concat_app in Hacc.
    apply Forall_app in Hacc as [Hc Hrest].
    assert (Hlt : (h < length (heap w))%nat).
    { apply lookup_lt_is_Some. by destruct (heap w !! h). }
    cbn [forOfWith]. unfold bind. rewrite (writeChunk_some fs fs0 batches h) by done.
    rewrite IH.
    + cbn [heap withHeap length seq replicate concat].
      rewrite length_app, pushOps_length, Nat.add_1_r.
      rewrite pushOps_app_l by (rewrite pushOps_length; lia).
      rewrite pushOps_app, fmap_app, concat_app.
      by rewrite <- !app_assoc.
    + by apply lookup_app_l_Some.
    + cbn [heap withHeap].
      rewrite lookup_app_l by (rewrite pushOps_length; lia).
      by rewrite pushOps_owner.
    + done.
Qed.

(** The first chunk: its batch is opened before the first write is
    looked at, and the array is still empty while its writes run. *)
Lemma writeChunk_first (fs : FirebaseFirestore) (c : list WriteOf) (w : World) :
  writeChunk fs [] c w
  = (if existsb effective c then Throw else Normal [length (heap w)],
     withHeap w (heap w ++ [emptyBatch fs])).
Proof.
  unfold writeChunk, bind, writeDocs. rewrite forOf_none.
  by destruct (existsb effective c).
Qed.

(** *** Whole runs *)

Lemma writeBatch_small_run (fs : FirebaseFirestore) (writes : list WriteOf) (w : World) :
  (length writes ≤ 500)%nat →
  writeBatch commitOutcome fs writes w
  = (if existsb effective writes then Throw else Normal (Fulfilled []), w).
Proof.
  intros Hlen. unfold writeBatch.
  replace (500 <? length writes)%nat with false by (symmetry; apply Nat.ltb_ge; lia).
  replace (length writes <=? 500)%nat with true by (symmetry; apply Nat.leb_le; lia).
  unfold bind at 1, ret at 1. unfold bind at 1. rewrite forOf_none.
  by destruct (existsb effective writes).
Qed.

(** What the commits read in the batches of a run that did not throw. *)
Lemma commits_of_run {B} (F : nat → list (@op DocumentReference) → B)
    (before : list Batch) (first : Batch) (fs : FirebaseFirestore) (k : nat) :
  let batches := (before ++ first :: replicate k (emptyBatch fs))%list in
  (λ h, F h (default [] (wb_ops <$> batches !! h)))
    <$> (length before :: seq (S (length before)) k)
  = F (length before) (wb_ops first) :: ((λ i, F i []) <$> seq (S (length before)) k).
Proof.
  intros batches. cbn [fmap list_fmap]. f_equal.
  - subst batches. by rewrite lookup_app_r, Nat.sub_diag by lia.
  - apply list_fmap_ext. intros j i [-> Hj]%lookup_seq. subst batches.
    rewrite lookup_app_r by lia.
    replace (S (length before) + j - length before)%nat with (S j) by lia.
    change ((first :: replicate k (emptyBatch fs)) !! S j)
      with (replicate k (emptyBatch fs) !! j).
    by rewrite lookup_replicate_2.
Qed.

Lemma writeBatch_large_throw_run (fs : FirebaseFirestore) (writes : list WriteOf)
    (w : World) :
  (500 < length writes)%nat → existsb effective (take 500 writes) = true →
  writeBatch commitOutcome fs writes w = (Throw, withHeap w (heap w ++ [emptyBatch fs])).
Proof.
  intros Hlen Hfirst. unfold writeBatch.
  replace (500 <? length writes)%nat with true by (symmetry; apply Nat.ltb_lt; lia).
  assert (Hne : writes ≠ []) by (intros ->; cbn in Hlen; lia).
  rewrite (chunk_cons writes 500) by (done || lia).
  cbn [forOfWith]. unfold bind at 1. unfold bind at 1.
  by rewrite writeChunk_first, Hfirst.
Qed.

Lemma writeBatch_large_run (fs : FirebaseFirestore) (writes : list WriteOf) (w : World) :
  (500 < length writes)%nat → existsb effective (take 500 writes) = false →
  Forall (λ o, acceptsOp fs o = true) (opsOf writes) →
  writeBatch commitOutcome fs writes w
  = (Normal (promiseAll
               (commitOutcome (length (heap w)) (opsOf writes)
                :: ((λ i, commitOutcome i [])
                      <$> seq (S (length (heap w)))
                              (length (chunk (drop 500 writes) 500))))),
     {| heap := heap w
                ++ {| wb_owner := fs; wb_ops := opsOf writes |}
                :: replicate (length (chunk (drop 500 writes) 500)) (emptyBatch fs);
        commitLog := commitLog w
                     ++ (length (heap w), opsOf writes)
                     :: ((λ i, (i, []))
                           <$> seq (S (length (heap w)))
                                   (length (chunk (drop 500 writes) 500)));
        listeners := listeners w;
        deletions := deletions w |}).
Proof.
  intros Hlen Hfirst Hacc. unfold writeBatch.
  replace (500 <? length writes)%nat with true by (symmetry; apply Nat.ltb_lt; lia).
  replace (length writes <=? 500)%nat with false by (symmetry; apply Nat.leb_gt; lia).
  assert (Hne : writes ≠ []) by (intros ->; cbn in Hlen; lia).
  rewrite (chunk_cons writes 500) by (done || lia).
  set (cs := chunk (drop 500 writes) 500).
  assert (Hops : opsOf (concat cs) = opsOf writes).
  { subst cs. rewrite concat_chunk by lia.
    rewrite <- (take_drop 500 writes) at 2.
    by rewrite fmap_app, concat_app, (opsOf_ineffective _ Hfirst). }
  cbn [forOfWith]. unfold bind at 1. unfold bind at 1. rewrite writeChunk_first, Hfirst.
  rewrite (forOfWith_some fs fs cs [length (heap w)] (length (heap w)));
    [|done
     |by cbn [heap withHeap]; rewrite lookup_app_r, Nat.sub_diag by lia
     |by rewrite Hops].
  unfold bind at 1, ret at 1. unfold bind. rewrite mapM_commit. unfold ret.
  cbn [heap withHeap commitLog listeners deletions].
  assert (Hheap : (pushOps (length (heap w)) (opsOf (concat cs))
                           (heap w ++ [emptyBatch fs])
                   ++ replicate (length cs) (emptyBatch fs))%list
                  = (heap w ++ {| wb_owner := fs; wb_ops := opsOf writes |}
                            :: replicate (length cs) (emptyBatch fs))%list).
  { unfold pushOps. rewrite <- (Nat.add_0_r (length (heap w))) at 1.
    rewrite alter_app_r, Hops, <- app_assoc. reflexivity. }
  rewrite Hheap, length_app. cbn [length app].
  replace (length (heap w) + 1)%nat with (S (length (heap w))) by lia.
  rewrite (commits_of_run commitOutcome (heap w) _ fs (length cs)).
  rewrite (commits_of_run (λ h ops, (h, ops)) (heap w) _ fs (length cs)).
  reflexivity.
Qed.

(** *** Operations the client refuses *)

Lemma batchAppend_refused (h : nat) (fs : FirebaseFirestore)
    (o : @op DocumentReference) (w : World) :
  wb_owner <$> heap w !! h = Some fs → acceptsOp fs o = false →
  batchAppend (Some h) o w = (Throw, w).
Proof.
  intros Hown Hacc. unfold batchAppend, batchAccepts.
  destruct (heap w !! h) as [obj|]; [|done]. injection Hown as ->. by rewrite Hacc.
Qed.

Lemma accepted_or_refused (fs : FirebaseFirestore) (ops : list (@op DocumentReference)) :
  Forall (λ o, acceptsOp fs o = true) ops ∨ Exists (λ o, acceptsOp fs o = false) ops.
Proof.
  induction ops as [|o rest [IH|IH]]; [by left| |by right; right].
  destruct (acceptsOp fs o) eqn:Ho; [left; by constructor|right; by left].
Qed.

Lemma accepted_not_refused (fs : FirebaseFirestore) (ops : list (@op DocumentReference)) :
  Forall (λ o, acceptsOp fs o = true) ops →
  ¬ Exists (λ o, acceptsOp fs o = false) ops.
Proof.
  intros Hall (o & Ho & Hr)%Exists_exists.
  rewrite Forall_forall in Hall. specialize (Hall o Ho). congruence.
Qed.

(** A write appends at most one operation. *)
Lemma writeOps_single (wr : WriteOf) (o : @op DocumentReference)
    (ops : list (@op DocumentReference)) :
  writeOps wr = o :: ops → ops = [].
Proof.
  rewrite writeOps_eq. destruct (w_type wr), (truthy (w_data wr)); congruence.
Qed.

Lemma forOf_refused (batches : list nat) (h : nat) (fs : FirebaseFirestore)
    (writes : list WriteOf) (w : World) :
  batches !! 0 = Some h → wb_owner <$> heap w !! h = Some fs →
  Exists (λ o, acceptsOp fs o = false) (opsOf writes) →
  fst (forOf writes (applyWrite batches) w) = Throw.
Proof.
  intros Hb. revert w. induction writes as [|wr rest IH]; intros w Hown Hex.
  - by inversion Hex.
  - cbn [fmap list_fmap concat] in Hex. apply Exists_app in Hex.
    cbn [forOf]. unfold bind.
    destruct (accepted_or_refused fs (writeOps wr)) as [Hall|Hwr].
    + rewrite (applyWrite_some batches h fs) by done.
      apply IH; [by cbn [heap withHeap]; rewrite pushOps_owner|].
      destruct Hex as [Hex|Hex]; [|done]. by apply accepted_not_refused in Hall.
    + rewrite applyWrite_eq, Hb.
      destruct (writeOps wr) as [|o ops] eqn:Hops; [by inversion Hwr|].
      apply writeOps_single in Hops as ->.
      inversion Hwr as [? ? Ho|? ? Hnil]; subst; [|by inversion Hnil].
      by rewrite (batchAppend_refused h fs).
Qed.

Lemma forOfWith_refused (fs fs0 : FirebaseFirestore) (chunks : list (list WriteOf))
    (batches : list nat) (h : nat) (w : World) :
  batches !! 0 = Some h → wb_owner <$> heap w !! h = Some fs0 →
  Exists (λ o, acceptsOp fs0 o = false) (opsOf (concat chunks)) →
  fst (forOfWith chunks (writeChunk fs) batches w) = Throw.
Proof.
  revert batches w. induction chunks as [|c rest IH]; intros batches w Hb Hown Hex.
  - by inversion Hex.
  - cbn [concat] in Hex. rewrite fmap_app, concat_app in Hex. apply Exists_app in Hex.
    assert (Hlt : (h < length (heap w))%nat).
    { apply lookup_lt_is_Some. by destruct (heap w !! h). }
    cbn [forOfWith]. unfold bind.
    destruct (accepted_or_refused fs0 (opsOf c)) as [Hall|Hc].
    + rewrite (writeChunk_some fs fs0 batches h) by done.
      apply IH.
      * by apply lookup_app_l_Some.
      * cbn [heap withHeap].
        rewrite lookup_app_l by (rewrite pushOps_length; lia).
        by rewrite pushOps_owner.
      * destruct Hex as [Hex|Hex]; [|done]. by apply accepted_not_refused in Hall.
    + unfold writeChunk, bind, writeDocs.
      set (w1 := {| heap := _ |}).
      assert (Hthrow : fst (forOf c (applyWrite batches) w1) = Throw).
      { apply (forOf_refused batches h fs0); [done| |done].
        subst w1. cbn [heap]. by rewrite lookup_app_l. }
      by destruct (forOf c (applyWrite batches) w1) as [[[]|] w2].
Qed.

(** *** What a call leaves alone *)

Lemma extendsClient_refl (w : World) : extendsClient w w.
Proof. by repeat split. Qed.

Lemma batchAppend_extends (w0 w : World) (b : option nat) (o : @op DocumentReference) :
  (∀ h, b = Some h → (length (heap w0) ≤ h)%nat) →
  extendsClient w0 w → extendsClient w0 (snd (batchAppend b o w)).
Proof.
  intros Hb (Hl & Hd & Hc & [k Hk]). unfold batchAppend, throw.
  destruct b as [h|]; [|by repeat split; [..|exists k]].
  destruct (batchAccepts w h o); cbn [snd]; [|by repeat split; [..|exists k]].
  repeat split; cbn [listeners deletions commitLog heap]; [done..|].
  rewrite Hk, alter_app_r_alt by eauto. by eexists.
Qed.

Lemma applyWrite_extends (w0 w : World) (batches : list nat) (wr : WriteOf) :
  (∀ h, batches !! 0 = Some h → (length (heap w0) ≤ h)%nat) →
  extendsClient w0 w → extendsClient w0 (snd (applyWrite batches wr w)).
Proof.
  intros Hb Hext. rewrite applyWrite_eq.
  destruct (writeOps wr) as [|o ?]; [done|]. by apply batchAppend_extends.
Qed.

Lemma forOf_extends (w0 w : World) (batches : list nat) (writes : list WriteOf) :
  (∀ h, batches !! 0 = Some h → (length (heap w0) ≤ h)%nat) →
  extendsClient w0 w → extendsClient w0 (snd (forOf writes (applyWrite batches) w)).
Proof.
  intros Hb. revert w. induction writes as [|wr rest IH]; intros w Hext; [done|].
  cbn [forOf]. unfold bind.
  pose proof (applyWrite_extends w0 w batches wr Hb Hext) as Hstep.
  destruct (applyWrite batches wr w) as [[[]|] w1]; cbn [snd] in *; [|done].
  by apply IH.
Qed.

Lemma writeChunk_extends (w0 w : World) (fs : FirebaseFirestore) (batches : list nat)
    (c : list WriteOf) :
  (∀ h, batches !! 0 = Some h → (length (heap w0) ≤ h)%nat) →
  extendsClient w0 w →
  extendsClient w0 (snd (writeChunk fs batches c w))
  ∧ ∀ batches', fst (writeChunk fs batches c w) = Normal batches' →
                ∀ h, batches' !! 0 = Some h → (length (heap w0) ≤ h)%nat.
Proof.
  intros Hb Hext. unfold writeChunk, bind, writeDocs.
  set (w1 := {| heap := _ |}).
  assert (Hext1 : extendsClient w0 w1).
  { destruct Hext as (Hl & Hd & Hc & Hpre). repeat split; [done..|].
    subst w1. cbn [heap]. by apply prefix_app_r. }
  pose proof (forOf_extends w0 w1 batches c Hb Hext1) as Hloop.
  destruct (forOf c (applyWrite batches) w1) as [[[]|] w2]; cbn [fst snd ret] in *.
  - split; [done|]. intros ? [= <-] h Hh.
    destruct batches as [|b rest]; [|by apply Hb].
    injection Hh as <-. destruct Hext as (_ & _ & _ & Hpre).
    by apply prefix_length.
  - split; [done|]. done.
Qed.

Lemma forOfWith_extends (w0 w : World) (fs : FirebaseFirestore)
    (chunks : list (list WriteOf)) (batches : list nat) :
  (∀ h, batches !! 0 = Some h → (length (heap w0) ≤ h)%nat) →
  extendsClient w0 w →
  extendsClient w0 (snd (forOfWith chunks (writeChunk fs) batches w))
  ∧ ∀ batches', fst (forOfWith chunks (writeChunk fs) batches w) = Normal batches' →
                ∀ h, batches' !! 0 = Some h → (length (heap w0) ≤ h)%nat.
Proof.
  revert batches w. induction chunks as [|c rest IH]; intros batches w Hb Hext.
  - cbn. split; [done|]. by intros ? [= <-].
  - cbn [forOfWith]. unfold bind.
    destruct (writeChunk_extends w0 w fs batches c Hb Hext) as [Hstep Hnext].
    destruct (writeChunk fs batches c w) as [[bs|] w1]; cbn [fst snd] in *; [|done].
    apply IH; [by apply Hnext|done].
Qed.

(** The two ways a call ends: it throws before any commit, having at
    most extended the client; or it commits the batches of its array,
    one after the other, on a client it has at most extended. *)
Lemma writeBatch_cases (fs : FirebaseFirestore) (writes : list WriteOf) (w : World) :
  (∃ w1, extendsClient w w1 ∧ writeBatch commitOutcome fs writes w = (Throw, w1))
  ∨ (∃ batches w1,
       extendsClient w w1
       ∧ writeBatch commitOutcome fs writes w
         = (Normal (promiseAll
                      ((λ h, commitOutcome h (default [] (wb_ops <$> heap w1 !! h)))
                         <$> batches)),
            {| heap := heap w1;
               commitLog := commitLog w1
                            ++ ((λ h, (h, default [] (wb_ops <$> heap w1 !! h)))
                                  <$> batches);
               listeners := listeners w1;
               deletions := deletions w1 |})).
Proof.
  pose (first := (if (500 <? length writes)%nat
                  then forOfWith (chunk writes 500) (writeChunk fs) []
                  else ret []) : World → completion (list nat) * World).
  pose (second := (λ batches : list nat,
                     if (length writes <=? 500)%nat
                     then forOf writes (applyWrite batches)
                     else ret tt) : list nat → World → completion unit * World).
  assert (Hrun : writeBatch commitOutcome fs writes w
                 = match first w with
                   | (Normal batches, w1) =>
                       match second batches w1 with
                       | (Normal _, w2) =>
                           bind (mapM (commit commitOutcome) batches)
                                (λ commits, ret (promiseAll commits)) w2
                       | (Throw, w2) => (Throw, w2)
                       end
                   | (Throw, w1) => (Throw, w1)
                   end) by reflexivity.
  rewrite Hrun. clear Hrun.
  assert (Hfirst : extendsClient w (snd (first w))
                   ∧ ∀ batches, fst (first w) = Normal batches →
                       ∀ h, batches !! 0 = Some h → (length (heap w) ≤ h)%nat).
  { subst first. destruct (500 <? length writes)%nat.
    - by apply forOfWith_extends; [|apply extendsClient_refl].
    - split; [apply extendsClient_refl|]. by intros ? [= <-]. }
  destruct (first w) as [[batches|] w1]; cbn [fst snd] in Hfirst;
    destruct Hfirst as [Hext1 Hnext]; [|left; eauto].
  assert (Hsecond : extendsClient w (snd (second batches w1))).
  { subst second. cbv beta. destruct (length writes <=? 500)%nat; [|done].
    apply forOf_extends; [by apply Hnext|done]. }
  destruct (second batches w1) as [[[]|] w2]; cbn [snd] in Hsecond; [|left; eauto].
  right. exists batches, w2. split; [done|]. unfold bind. by rewrite mapM_commit.
Qed.

(** X18. The third case of a long list: the first 500 writes are
    ineffective and the client's batch refuses an operation of a later
    one. The call then throws, and it has committed nothing. *)
Theorem writeBatch_large_refused (fs : FirebaseFirestore) (writes : list WriteOf)
    (w : World) :
  (500 < length writes)%nat → existsb effective (take 500 writes) = false →
  Exists (λ o, acceptsOp fs o = false) (opsOf writes) →
  fst (writeBatch commitOutcome fs writes w) = Throw
  ∧ commitLog (snd (writeBatch commitOutcome fs writes w)) = commitLog w.
Proof.
  intros Hlen Hfirst Hex.
  assert (Hthrow : fst (writeBatch commitOutcome fs writes w) = Throw).
  { unfold writeBatch.
    replace (500 <? length writes)%nat with true by (symmetry; apply Nat.ltb_lt; lia).
    assert (Hne : writes ≠ []) by (intros ->; cbn in Hlen; lia).
    rewrite (chunk_cons writes 500) by (done || lia).
    set (cs := chunk (drop 500 writes) 500).
    assert (Hops : opsOf (concat cs) = opsOf writes).
    { subst cs. rewrite concat_chunk by lia.
      rewrite <- (take_drop 500 writes) at 2.
      by rewrite fmap_app, concat_app, (opsOf_ineffective _ Hfirst). }
    cbn [forOfWith]. unfold bind at 1. unfold bind at 1.
    rewrite writeChunk_first, Hfirst.
    assert (Hloop : fst (forOfWith cs (writeChunk fs) [length (heap w)]
                           (withHeap w (heap w ++ [emptyBatch fs]))) = Throw).
    { apply (forOfWith_refused fs fs cs _ (length (heap w))); [done| |by rewrite Hops].
      by cbn [heap withHeap]; rewrite lookup_app_r, Nat.sub_diag by lia. }
    by destruct (forOfWith cs (writeChunk fs) [length (heap w)]
                   (withHeap w (heap w ++ [emptyBatch fs]))) as [[bs|] w2]. }
  split; [done|].
  destruct (writeBatch_cases fs writes w)
    as [(w1 & (_ & _ & Hc & _) & Hrun)|(batches & w1 & _ & Hrun)];
    rewrite Hrun in *; [done|discriminate].
Qed.

Lemma truthy_false_iff (v : value) :
  truthy v = false
  ↔ v ∈ [VUndefined; VNull; VBool false; VNum 0; VNaN; VBigInt 0; VStr ""].
Proof.
  rewrite !elem_of_cons, elem_of_nil. split.
  - intros Hv. destruct v as [| |[]|z|str|o| |z]; cbn in Hv; try done; auto 10.
    + apply negb_false_iff, Z.eqb_eq in Hv as ->. auto 10.
    + apply negb_false_iff, String.eqb_eq in Hv as ->. auto 10.
    + apply negb_false_iff, Z.eqb_eq in Hv as ->. auto 10.
  - intros [->|[->|[->|[->|[->|[->|[->|[]]]]]]]]; done.
Qed.

Lemma fulfilledValues_unit {E} (ps : list (promise E unit)) :
  Forall (λ p, ∃ a, outcome p = Fulfilled a) ps →
  fulfilledValues ps = replicate (length ps) tt.
Proof.
  induction 1 as [|p rest [[] Hp] _ IH]; [done|].
  unfold fulfilledValues in *. cbn [omap list_omap length replicate].
  by rewrite Hp, IH.
Qed.

(** X12. For at most 500 writes the call opens no batch and issues no
    commit. It throws when some write is effective (a [Delete], or a
    [Set] or [Update] with a truthy payload) and otherwise returns a
    promise fulfilled with the empty array; in both cases the client is
    left exactly as it was. *)
Theorem writeBatch_small_outcome
    (fs : FirebaseFirestore) (writes : list WriteOf) (w : World) :
  (length writes ≤ 500)%nat →
  writeBatch commitOutcome fs writes w
  = (if existsb effective writes then Throw else Normal (Fulfilled []), w).
Proof. apply writeBatch_small_run. Qed.

(** X13. For more than 500 writes with an effective write among the
    first 500, the call throws. It has then opened one batch, left
    empty and never committed, and changed nothing else. *)
Theorem writeBatch_large_throws
    (fs : FirebaseFirestore) (writes : list WriteOf) (w : World) :
  (500 < length writes)%nat → existsb effective (take 500 writes) = true →
  writeBatch commitOutcome fs writes w
  = (Throw, {| heap := heap w ++ [ {| wb_owner := fs; wb_ops := [] |} ];
               commitLog := commitLog w;
               listeners := listeners w;
               deletions := deletions w |}).
Proof. apply writeBatch_large_throw_run. Qed.

(** X14. For more than 500 writes whose first 500 are all ineffective
    and whose operations the client's batch all takes (a batch of the
    real client throws on a payload that is no object, such as the
    number 1), the call does not throw. It opens one batch per chunk,
    that is [ceil(n / 500)] batches on the handle [fs]; the first batch
    receives the operations of all writes, in input order, and every
    other batch stays empty; then each batch is committed once, in the
    order the batches were opened, and the promise returned is
    [Promise.all] over these commits. *)
Theorem writeBatch_large_runs
    (fs : FirebaseFirestore) (writes : list WriteOf) (w : World) :
  (500 < length writes)%nat → existsb effective (take 500 writes) = false →
  Forall (λ o, acceptsOp fs o = true) (opsOf writes) →
  let first := length (heap w) in
  let others := length (chunk (drop 500 writes) 500) in
  S others = ((length writes + 499) / 500)%nat
  ∧ writeBatch commitOutcome fs writes w
    = (Normal (promiseAll
                 (commitOutcome first (opsOf writes)
                  :: ((λ i, commitOutcome i []) <$> seq (S first) others))),
       {| heap := heap w
                  ++ {| wb_owner := fs; wb_ops := opsOf writes |}
                  :: replicate others {| wb_owner := fs; wb_ops := [] |};
          commitLog := commitLog w
                       ++ (first, opsOf writes)
                       :: ((λ i, (i, [])) <$> seq (S first) others);
          listeners := listeners w;
          deletions := deletions w |}).
Proof.
  intros Hlen Hfirst Hacc first others. split.
  - assert (Hne : writes ≠ []) by (intros ->; cbn in Hlen; lia).
    pose proof (chunk_length writes 500 ltac:(lia)) as Hn.
    rewrite (chunk_cons writes 500) in Hn by (done || lia).
    cbn [length] in Hn. subst others. rewrite Hn. f_equal. lia.
  - by apply writeBatch_large_run.
Qed.

(** X15. Whatever the writes, and whether it throws or not, the call
    leaves the snapshot registrations and the requested deletions as
    they were, keeps every batch that existed before unchanged, and
    only adds to the log of commits. *)
Theorem writeBatch_frame (fs : FirebaseFirestore) (writes : list WriteOf) (w : World) :
  listeners (snd (writeBatch commitOutcome fs writes w)) = listeners w
  ∧ deletions (snd (writeBatch commitOutcome fs writes w)) = deletions w
  ∧ heap w `prefix_of` heap (snd (writeBatch commitOutcome fs writes w))
  ∧ commitLog w `prefix_of` commitLog (snd (writeBatch commitOutcome fs writes w)).
Proof.
  destruct (writeBatch_cases fs writes w)
    as [(w1 & (Hl & Hd & Hc & Hh) & ->)|(batches & w1 & (Hl & Hd & Hc & Hh) & ->)];
    cbn [snd heap commitLog listeners deletions].
  - by rewrite Hc.
  - rewrite Hc. repeat split; [done..|]. by eexists.
Qed.

(** X16. When the call returns, its promise is [Promise.all] over the
    commits it issued, which are exactly what it added to the commit
    log. If every one of them fulfils, the promise fulfils with one
    value per commit; if one rejects, the promise rejects with the
    reason of a rejecting commit that settled no later than any other
    rejecting one. *)
Theorem writeBatch_settles
    (fs : FirebaseFirestore) (writes : list WriteOf)
    (r : settled FirestoreError (list unit)) (w w' : World) :
  writeBatch commitOutcome fs writes w = (Normal r, w') →
  ∃ issued,
    let ps := (λ c, commitOutcome c.1 c.2) <$> issued in
    commitLog w' = (commitLog w ++ issued)%list
    ∧ r = promiseAll ps
    ∧ (Forall (λ p, ∃ a, outcome p = Fulfilled a) ps →
       r = Fulfilled (replicate (length issued) tt))
    ∧ ((∃ p e, p ∈ ps ∧ outcome p = Rejected e) →
       ∃ p e, p ∈ ps ∧ outcome p = Rejected e ∧ r = Rejected e
              ∧ ∀ q e', q ∈ ps → outcome q = Rejected e' →
                        (settleTime p ≤ settleTime q)%nat).
Proof.
  intros Hrun.
  assert (Hissued : ∃ issued, commitLog w' = (commitLog w ++ issued)%list
                              ∧ r = promiseAll ((λ c, commitOutcome c.1 c.2) <$> issued)).
  { destruct (writeBatch_cases fs writes w)
      as [(w1 & _ & Hthrow)|(batches & w1 & (_ & _ & Hc & _) & Hcommits)];
      [congruence|].
    rewrite Hcommits in Hrun. injection Hrun as <- <-. cbn [commitLog]. rewrite Hc.
    eexists. split; [reflexivity|]. by rewrite <- list_fmap_compose. }
  destruct Hissued as (issued & Hlog & Hr). exists issued. cbv zeta.
  split; [done|]. split; [done|]. split.
  - intros Hall. rewrite Hr, (promiseAll_fulfils _ Hall), (fulfilledValues_unit _ Hall).
    by rewrite length_fmap.
  - intros Hrej. destruct (promiseAll_rejects _ Hrej) as (p & e & Hp & Ho & Hall & Hmin).
    exists p, e. by rewrite Hr.
Qed.

(** X17. A [Set] or [Update] whose payload is [undefined], [null],
    [false], the number [0], [NaN], the BigInt [0n] or the empty string
    is skipped like one without payload: nothing is appended and nothing
    is thrown, whatever the array of batches holds. These are the only
    payloads skipped: a write is ineffective exactly when it is no
    [Delete] and carries one of them. *)
Theorem applyWrite_falsy_payload (batches : list nat) (wr : WriteOf) (w : World) :
  w_type wr ≠ DELETE →
  w_data wr ∈ [VUndefined; VNull; VBool false; VNum 0; VNaN; VBigInt 0; VStr ""] →
  applyWrite batches wr w = (Normal tt, w)
  ∧ ∀ wr' : WriteOf,
      effective wr' = false
      ↔ w_type wr' ≠ DELETE
        ∧ w_data wr' ∈ [VUndefined; VNull; VBool false; VNum 0; VNaN; VBigInt 0;
                         VStr ""].
Proof.
  intros Hty Hd. split.
  - apply applyWrite_falsy; [by destruct (w_type wr); auto|by apply truthy_false_iff].
  - intros wr'. unfold effective. rewrite <- truthy_false_iff.
    destruct (w_type wr'), (truthy (w_data wr')); cbn; split; try done.
    all: by intros [? ?].
Qed.

End WriterRuns.

(** ** Concrete runs of the further properties *)

Lemma getDoc_bare_get_rejects_witness :
  (getDocumentA1 "users/1" = Fulfilled docA1
   ∧ requestsABCD ≠ []
   ∧ ∀ fp o, snap_get_detached docA1 fp o = Throws TypeError)
  ∧ getDoc getDocumentA1 "users/1" true None requestsABCD = Rejected TypeError.
Proof.
  assert (H1 : getDocumentA1 "users/1" = Fulfilled docA1) by reflexivity.
  assert (H2 : requestsABCD ≠ []) by discriminate.
  assert (H3 : ∀ fp o, snap_get_detached docA1 fp o = Throws TypeError)
    by reflexivity.
  split; [done|].
  exact (getDoc_bare_get_rejects getDocumentA1 "users/1" docA1 true None requestsABCD
           TypeError H1 H2 H3).
Defined.

Lemma getDoc_field_keys_witness :
  (requestsABCD ≠ []
   ∧ Forall2 (λ gf p, fieldPath gf = FPString p) requestsABCD ["a.b"; "a.c"; "d"]
   ∧ getDoc getDocumentA1Lenient "users/1" true None requestsABCD
     = Fulfilled (DataOnly shapedABCD))
  ∧ ∃ props,
      resultData (@DataOnly unit (unit → bool) shapedABCD) = VObj props
      ∧ dom props = list_to_set (firstSegment <$> ["a.b"; "a.c"; "d"])
      ∧ shapeLoop ((λ p, {| fv_data := VUndefined; fv_fieldPath := FPString p |})
                     <$> ["a.b"; "a.c"; "d"]) (VObj ∅)
        = Normal (VObj props).
Proof.
  assert (H1 : requestsABCD ≠ []) by discriminate.
  assert (H2 : Forall2 (λ gf p, fieldPath gf = FPString p) requestsABCD
                       ["a.b"; "a.c"; "d"]) by (repeat constructor).
  assert (H3 : getDoc getDocumentA1Lenient "users/1" true None requestsABCD
               = Fulfilled (DataOnly shapedABCD))
    by (vm_compute; reflexivity).
  split; [done|].
  exact (getDoc_field_keys getDocumentA1Lenient "users/1" true None requestsABCD
           ["a.b"; "a.c"; "d"] _ H1 H2 H3).
Defined.

Lemma getDocs_agrees_with_getDoc_witness :
  getDocumentsA1 "users" = Fulfilled usersSnapshots
  ∧ (let one := λ snap : @QueryDocumentSnapshot string unit unit string (unit → bool),
       getDoc (λ _ : string, Fulfilled (qds_doc snap)) (qds_ref snap) false None
              (toFieldRequest <$> requestAB) in
     (∀ results, getDocs getDocumentsA1 "users" false (Some tt) requestAB
                 = Fulfilled results
                 ↔ Forall2 (λ snap r, one snap = Fulfilled r) usersSnapshots results)
     ∧ (∀ err, getDocs getDocumentsA1 "users" false (Some tt) requestAB = Rejected err
               ↔ ∃ pre snap post,
                   usersSnapshots = (pre ++ snap :: post)%list
                   ∧ Forall (λ s, ∃ r, one s = Fulfilled r) pre
                   ∧ one snap = Rejected err)).
Proof.
  assert (H1 : getDocumentsA1 "users" = Fulfilled usersSnapshots) by reflexivity.
  split; [done|].
  exact (getDocs_agrees_with_getDoc getDocumentsA1 "users" (Some tt) requestAB
           usersSnapshots H1).
Defined.


Lemma writeBatch_small_outcome_witness :
  (length [setWithoutData "users/1"; deleteOf "users/2"] ≤ 500)%nat
  ∧ writeBatch commitFulfils "db" [setWithoutData "users/1"; deleteOf "users/2"]
               (emptyWorld : World0)
    = (Throw, emptyWorld).
Proof.
  assert (H1 : (length [setWithoutData "users/1"; deleteOf "users/2"] ≤ 500)%nat)
    by (cbn; lia).
  split; [done|].
  exact (writeBatch_small_outcome (Query:=string) (Callback:=nat) commitFulfils "db"
           [setWithoutData "users/1"; deleteOf "users/2"] emptyWorld H1).
Defined.

Lemma writeBatch_large_throws_witness :
  ((500 < length (setsWithData 501))%nat
   ∧ existsb effective (take 500 (setsWithData 501)) = true)
  ∧ writeBatch commitFulfils "db" (setsWithData 501) (emptyWorld : World0)
    = (Throw, {| heap := [ {| wb_owner := "db"; wb_ops := [] |} ];
                 commitLog := [];
                 listeners := [];
                 deletions := [] |}).
Proof.
  assert (H1 : (500 < length (setsWithData 501))%nat)
    by (unfold setsWithData; rewrite length_replicate; lia).
  assert (H2 : existsb effective (take 500 (setsWithData 501)) = true)
    by (vm_compute; reflexivity).
  split; [done|].
  exact (writeBatch_large_throws (Query:=string) (Callback:=nat) commitFulfils "db"
           (setsWithData 501) emptyWorld H1 H2).
Defined.

Lemma writeBatch_large_runs_witness :
  ((500 < length mixedWrites)%nat
   ∧ existsb effective (take 500 mixedWrites) = false
   ∧ Forall (λ o, acceptsOp "db" o = true) (concat (writeOps <$> mixedWrites)))
  ∧ (S (length (chunk (drop 500 mixedWrites) 500)) = ((length mixedWrites + 499) / 500)%nat
     ∧ writeBatch commitFulfils "db" mixedWrites (emptyWorld : World0)
       = (Normal (promiseAll
                    (commitFulfils 0 (concat (writeOps <$> mixedWrites))
                     :: ((λ i, commitFulfils i [])
                           <$> seq 1 (length (chunk (drop 500 mixedWrites) 500))))),
          {| heap := [] ++ {| wb_owner := "db";
                              wb_ops := concat (writeOps <$> mixedWrites) |}
                     :: replicate (length (chunk (drop 500 mixedWrites) 500))
                                  {| wb_owner := "db"; wb_ops := [] |};
             commitLog := [] ++ (0, concat (writeOps <$> mixedWrites))
                          :: ((λ i, (i, []))
                                <$> seq 1 (length (chunk (drop 500 mixedWrites) 500)));
             listeners := [];
             deletions := [] |})).
Proof.
  assert (H1 : (500 < length mixedWrites)%nat)
    by (unfold mixedWrites; rewrite length_app, length_replicate; cbn; lia).
  assert (H2 : existsb effective (take 500 mixedWrites) = false)
    by (vm_compute; reflexivity).
  assert (H3 : Forall (λ o, acceptsOp "db" o = true) (concat (writeOps <$> mixedWrites)))
    by (vm_compute; repeat constructor).
  split; [done|].
  exact (writeBatch_large_runs (Query:=string) (Callback:=nat) commitFulfils "db"
           mixedWrites emptyWorld H1 H2 H3).
Defined.

Lemma writeBatch_large_refused_witness :
  ((500 < length refusedWrites)%nat
   ∧ existsb effective (take 500 refusedWrites) = false
   ∧ Exists (λ o, acceptsOp "db" o = false) (concat (writeOps <$> refusedWrites)))
  ∧ fst (writeBatch commitFulfils "db" refusedWrites (emptyWorld : World0)) = Throw
    ∧ commitLog (snd (writeBatch commitFulfils "db" refusedWrites (emptyWorld : World0)))
      = [].
Proof.
  assert (H1 : (500 < length refusedWrites)%nat)
    by (unfold refusedWrites; rewrite length_app, length_replicate; cbn; lia).
  assert (H2 : existsb effective (take 500 refusedWrites) = false)
    by (vm_compute; reflexivity).
  assert (H3 : Exists (λ o, acceptsOp "db" o = false)
                      (concat (writeOps <$> refusedWrites)))
    by (vm_compute; by left).
  split; [done|].
  exact (writeBatch_large_refused (Query:=string) (Callback:=nat) commitFulfils "db"
           refusedWrites emptyWorld H1 H2 H3).
Defined.

(** The same run in full: the call throws at [batches[0].set], after two
    batches were opened and before any commit. *)
Example writeBatch_refused_payload :
  writeBatch commitFulfils "db" refusedWrites (emptyWorld : World0)
  = (Throw, {| heap := [ {| wb_owner := "db"; wb_ops := [] |};
                         {| wb_owner := "db"; wb_ops := [] |} ];
               commitLog := [];
               listeners := [];
               deletions := [] |}).
Proof. by vm_compute. Qed.

Lemma writeBatch_settles_witness :
  writeBatch commitSecondFails "db" mixedWrites (emptyWorld : World0)
  = (Normal (Rejected "unavailable"),
     {| heap := [ {| wb_owner := "db"; wb_ops := [OpDelete "users/2"] |};
                  {| wb_owner := "db"; wb_ops := [] |} ];
        commitLog := [(0, [OpDelete "users/2"]); (1, [])];
        listeners := [];
        deletions := [] |})
  ∧ ∃ issued,
      let ps := (λ c, commitSecondFails c.1 c.2) <$> issued in
      [(0, [OpDelete "users/2"]); (1, [])] = ([] ++ issued)%list
      ∧ @Rejected string (list unit) "unavailable" = promiseAll ps
      ∧ (Forall (λ p, ∃ a, outcome p = Fulfilled a) ps →
         @Rejected string (list unit) "unavailable" = Fulfilled (replicate (length issued) tt))
      ∧ ((∃ p e, p ∈ ps ∧ outcome p = Rejected e) →
         ∃ p e, p ∈ ps ∧ outcome p = Rejected e ∧ @Rejected string (list unit) "unavailable" = Rejected e
                ∧ ∀ q e', q ∈ ps → outcome q = Rejected e' →
                          (settleTime p ≤ settleTime q)%nat).
Proof.
  assert (H1 : writeBatch commitSecondFails "db" mixedWrites (emptyWorld : World0)
               = (Normal (Rejected "unavailable"),
                  {| heap := [ {| wb_owner := "db"; wb_ops := [OpDelete "users/2"] |};
                               {| wb_owner := "db"; wb_ops := [] |} ];
                     commitLog := [(0, [OpDelete "users/2"]); (1, [])];
                     listeners := [];
                     deletions := [] |}))
    by (vm_compute; reflexivity).
  split; [done|].
  exact (writeBatch_settles (Query:=string) (Callback:=nat) commitSecondFails "db"
           mixedWrites (Rejected "unavailable") emptyWorld _ H1).
Defined.

Lemma applyWrite_falsy_payload_witness :
  (w_type setZero ≠ DELETE
   ∧ w_data setZero ∈ [VUndefined; VNull; VBool false; VNum 0; VNaN; VBigInt 0; VStr ""])
  ∧ applyWrite [0] setZero (emptyWorld : World0) = (Normal tt, emptyWorld)
    ∧ ∀ wr' : @Write string,
        effective wr' = false
        ↔ w_type wr' ≠ DELETE
          ∧ w_data wr' ∈ [VUndefined; VNull; VBool false; VNum 0; VNaN; VBigInt 0;
                           VStr ""].
Proof.
  assert (H1 : w_type setZero ≠ DELETE) by discriminate.
  assert (H2 : w_data setZero
               ∈ [VUndefined; VNull; VBool false; VNum 0; VNaN; VBigInt 0; VStr ""])
    by (rewrite !elem_of_cons; auto 10).
  split; [done|].
  exact (applyWrite_falsy_payload (FirebaseFirestore:=string) (Query:=string)
           (Callback:=nat) [0] setZero emptyWorld H1 H2).
Defined.
